(** * simlog: a shallow embedding of the discrete-event kernel

    The development follows the Python sources module by module:

    - [simlog/events/events.py]            event classes and topics
    - [simlog/data_models/event_log.py]    [LoggedEvent]
    - [simlog/engine/component_manager.py] [ComponentManager]
    - [simlog/engine/environment.py]       [SimLogEnvironment]
    - [simlog/engine/base.py]              [BaseComponent]

    Python objects that are shared and mutated (components) live in a store
    and are named by references; exceptions are values of an error monad.
    The kernel extends simpy: the few simpy and [heapq] operations it calls
    are modelled from their description in the specification and marked as
    such. *)

From Stdlib Require Import ZArith Lia Bool Sorted.
From stdpp Require Import base option list strings gmap sorting.

Open Scope Z_scope.

(** ** Python values *)

(** A [uuid.UUID] is a 128-bit number; object identities are store indices. *)
Abbreviation UUID := N.
Abbreviation CompRef := nat.

(** The exceptions the kernel raises or lets through.  [DanglingReference]
    is not a Python exception: it is the outcome of a method called on a
    reference outside the store, which no constructor ever produces. *)
Inductive Exn :=
| UnsetManager
| EmptySchedule
| KeyError
| AttributeError
| TypeError
| ValueError
| RuntimeError
| StopSimulation
| PyException (ty msg : string)
| DanglingReference.

(** Outcome of a call: a result, or a raised exception. *)
Inductive Result (A : Type) :=
| Ok (a : A)
| Raise (e : Exn).

Arguments Ok {A} a.
Arguments Raise {A} e.

#[global] Instance Result_ret : MRet Result := fun A a => Ok a.

#[global] Instance Result_bind : MBind Result := fun A B k r =>
  match r with
  | Ok a => k a
  | Raise e => Raise e
  end.

#[global] Instance Result_fmap : FMap Result := fun A B f r =>
  match r with
  | Ok a => Ok (f a)
  | Raise e => Raise e
  end.

(** Values carried as event payloads ([Any] in the source). *)
Inductive PyVal :=
| VNone
| VStr (s : string)
| VInt (z : Z)
| VUuid (u : UUID)
| VComponent (c : CompRef)
| VInterrupt (cause : string)
| VException (ty msg : string)
| VDict (k v : string).

(** A component state tag.  The annotation says [str | None], the docstring
    of [update_state] says "any"; a [str] object has an identity besides its
    contents, an [Enum] member is identified by its name.  The members are
    those whose value is a string, which is what the [component_state]
    field of a log record takes. *)
Inductive StateTag :=
| SNone
| SStr (id : nat) (s : string)
| SEnum (member value : string).

(** [a is b] *)
Definition py_is (a b : StateTag) : bool :=
  match a, b with
  | SNone, SNone => true
  | SStr i _, SStr j _ => Nat.eqb i j
  | SEnum n _, SEnum n' _ => String.eqb n n'
  | _, _ => false
  end.

(** [a == b] *)
Definition py_eq (a b : StateTag) : bool :=
  match a, b with
  | SNone, SNone => true
  | SStr _ s, SStr _ s' => String.eqb s s'
  | SEnum n _, SEnum n' _ => String.eqb n n'
  | _, _ => false
  end.

(** [bool(a)]: [None] and the empty string are falsy. *)
Definition truthy (a : StateTag) : bool :=
  match a with
  | SNone => false
  | SStr _ s => negb (String.eqb s "")
  | SEnum _ _ => true
  end.

(** [a.value]: defined on [Enum] members only. *)
Definition getattr_value (a : StateTag) : Result string :=
  match a with
  | SEnum _ v => Ok v
  | SNone | SStr _ _ => Raise AttributeError
  end.

(** ** events/events.py *)

Module EventTopicValue.
Record t := { value : string; description : string }.
End EventTopicValue.

(** A member of the [EventTopic] enumeration: its name and its value. *)
Module EventTopic.
Record t := { name : string; value : EventTopicValue.t }.

Definition DUMMY_EVENT : t :=
  {| name := "DUMMY_EVENT";
     value := {| EventTopicValue.value := "DUMMY_EVENT";
                 EventTopicValue.description := "Example event" |} |}.
Definition STATE_CHANGE : t :=
  {| name := "STATE_CHANGE";
     value := {| EventTopicValue.value := "STATE_CHANGE";
                 EventTopicValue.description := "Used by all components" |} |}.
End EventTopic.

#[global] Instance EventTopicValue_eq_dec : EqDecision EventTopicValue.t.
Proof. solve_decision. Defined.

#[global] Instance EventTopic_eq_dec : EqDecision EventTopic.t.
Proof. solve_decision. Defined.

#[global] Instance EventTopic_countable : Countable EventTopic.t.
Proof.
  apply (inj_countable'
    (fun tp => (EventTopic.name tp,
                EventTopicValue.value (EventTopic.value tp),
                EventTopicValue.description (EventTopic.value tp)))
    (fun p => {| EventTopic.name := p.1.1;
                 EventTopic.value :=
                   {| EventTopicValue.value := p.1.2;
                      EventTopicValue.description := p.2 |} |})).
  by intros [? []].
Defined.

(** simpy's priority classes: urgent entries come first. *)
Definition URGENT : Z := 0.
Definition NORMAL : Z := 1.

(** The event classes: simpy's own ([Event], [Timeout], [Initialize],
    [Process]) and the SimLog ones. *)
Inductive EventClass :=
| Event_
| Timeout
| Initialize
| Process
| BaseSimLogEvent
| SimLogTimeout
| SimLogTargetedTimeout
| SimLogSingleRefEvent
| SimLogUuidRefEvent
| SimLogProcess
| SimLogInitialize.

#[global] Instance EventClass_eq_dec : EqDecision EventClass.
Proof. solve_decision. Defined.

(** The direct base class, as in the [class] statements. *)
Definition base_class (c : EventClass) : option EventClass :=
  match c with
  | Event_ => None
  | Timeout | Initialize | Process | BaseSimLogEvent => Some Event_
  | SimLogTimeout => Some BaseSimLogEvent
  | SimLogTargetedTimeout => Some SimLogTimeout
  | SimLogSingleRefEvent | SimLogUuidRefEvent | SimLogInitialize => Some BaseSimLogEvent
  | SimLogProcess => Some Process
  end.

Fixpoint subclass_fuel (n : nat) (c d : EventClass) : bool :=
  if decide (c = d) then true
  else match n with
       | O => false
       | S n' => match base_class c with
                 | Some b => subclass_fuel n' b d
                 | None => false
                 end
       end.

(** [issubclass(c, d)]; the hierarchy is three levels deep. *)
Definition issubclass (c d : EventClass) : bool := subclass_fuel 3 c d.

(** What an event callback can be. *)
Inductive Callback :=
| listen (c : CompRef)
| _resume (process : nat)
| other_callback (n : nat).

(** [Union[BaseComponent, UUID, str, None]] *)
Inductive Parent :=
| ParentNone
| ParentUuid (u : UUID)
| ParentStr (s : string)
| ParentComponent (c : CompRef).

(** The [single_reference] attribute. *)
Inductive SingleRef :=
| RefNone
| RefUuid (u : UUID)
| RefComponent (c : CompRef).

(** An event object.  The schedule holds events by value: between its
    scheduling and its firing the kernel changes an event only at the head
    of the queue, in [trigger_event].
    [single_reference = None] and [component_state = None]
    stand for an attribute the object does not have; [callbacks = None] is
    Python's [None] (an event already processed); [_value = None] is simpy's
    [PENDING] and [_ok = None] an event not yet triggered; [_defused] is
    [hasattr(event, "_defused")]. *)
Record Event := {
  cls : EventClass;
  topic : option EventTopic.t;
  parent : Parent;
  component_state : option StateTag;
  cause : option nat;
  single_reference : option SingleRef;
  callbacks : option (list Callback);
  _value : option PyVal;
  _ok : option bool;
  _defused : bool;
}.

Definition isinstance (e : Event) (c : EventClass) : bool := issubclass (cls e) c.

Definition set_callbacks (e : Event) (cbs : option (list Callback)) : Event :=
  {| cls := cls e; topic := topic e; parent := parent e;
     component_state := component_state e; cause := cause e;
     single_reference := single_reference e; callbacks := cbs;
     _value := _value e; _ok := _ok e; _defused := _defused e |}.

(** Modelled from the spec: simpy's [Event.value] property is not part of
    the sources.  It yields the payload, and fails on an event that has
    none yet. *)
Definition Event_value (e : Event) : Result PyVal :=
  match _value e with
  | None => Raise AttributeError
  | Some v => Ok v
  end.

(** ** data_models/event_log.py *)

(** A log record.  The fields are those of the pydantic model, with the
    values [log_event] gives them: labels that are strings or [None], the
    payload, and the numbers of the schedule entry.  [sim_time] is declared
    a [float]; the record holds the number, which is the time of the entry
    as long as a float represents that integer exactly. *)
Module LoggedEvent.
Record t := {
  topic : string;
  parent : option string;
  single_reference : option string;
  sim_time : Z;
  value : PyVal;
  simpy_id : nat;
  simpy_priority : Z;
  component_state : option string;
}.
End LoggedEvent.

(** ** engine/base.py: the component object *)

(** The attributes [BaseComponent.__init__] sets ([env] is the ambient
    environment and is passed explicitly to the methods). *)
Record BaseComponent := {
  uuid : UUID;
  name : string;
  _subscriptions : list EventTopic.t;
  last_time_state_updated : Z;
  state : StateTag;
}.

(** The store of component objects. *)
Abbreviation Store := (gmap nat BaseComponent).

(** ** engine/component_manager.py *)

Record ComponentManager := {
  _components : option (list CompRef);
  _component_lookup : gmap N CompRef;
  _subscriptions_lookup : gmap EventTopic.t (list Callback);
  event_log : list LoggedEvent.t;
}.

(** [d[key]] on a [defaultdict(list)]: a missing key is inserted with []. *)
Definition defaultdict_getitem (d : gmap EventTopic.t (list Callback)) (key : EventTopic.t)
  : gmap EventTopic.t (list Callback) * list Callback :=
  match d !! key with
  | Some l => (d, l)
  | None => (<[key := []]> d, [])
  end.

(** [self._subscriptions_lookup[topic].append(component.listen)] *)
Definition subscribe (c : CompRef) (m : ComponentManager) (tp : EventTopic.t) : ComponentManager :=
  let '(d, l) := defaultdict_getitem (_subscriptions_lookup m) tp in
  {| _components := _components m;
     _component_lookup := _component_lookup m;
     _subscriptions_lookup := <[tp := l ++ [listen c]]> d;
     event_log := event_log m |}.

(** The body of [for component in components].  A reference always names a
    live object in Python; the [None] branch keeps the function total. *)
Definition register (h : Store) (m : ComponentManager) (c : CompRef) : ComponentManager :=
  match h !! c with
  | None => m
  | Some component =>
      foldl (subscribe c)
        {| _components := _components m;
           _component_lookup := <[uuid component := c]> (_component_lookup m);
           _subscriptions_lookup := _subscriptions_lookup m;
           event_log := event_log m |}
        (_subscriptions component)
  end.

(** The [components] property setter. *)
Definition components_setter (h : Store) (components : option (list CompRef))
    (m : ComponentManager) : ComponentManager :=
  let m0 := {| _components := components;
               _component_lookup := ∅;
               _subscriptions_lookup := ∅;
               event_log := event_log m |} in
  match components with
  | Some cs => foldl (register h) m0 cs
  | None => m0
  end.

(** [ComponentManager.__init__] *)
Definition ComponentManager_init (h : Store) (components : option (list CompRef))
  : ComponentManager :=
  components_setter h components
    {| _components := None; _component_lookup := ∅;
       _subscriptions_lookup := ∅; event_log := [] |}.

Definition get_component_by_uuid (m : ComponentManager) (id : UUID) : option CompRef :=
  _component_lookup m !! id.

Definition get_component_name_by_uuid (m : ComponentManager) (h : Store) (id : UUID)
  : option string :=
  match _component_lookup m !! id with
  | Some c => name <$> h !! c
  | None => None
  end.

(** [self._component_lookup[ref].listen]: only a registered UUID is a key. *)
Definition component_lookup_listen (m : ComponentManager) (ref : SingleRef) : Result Callback :=
  match ref with
  | RefUuid u =>
      match _component_lookup m !! u with
      | Some c => Ok (listen c)
      | None => Raise KeyError
      end
  | RefNone | RefComponent _ => Raise KeyError
  end.

(** [event.single_reference]: AttributeError when the attribute is not set. *)
Definition getattr_single_reference (event : Event) : Result SingleRef :=
  match single_reference event with
  | Some r => Ok r
  | None => Raise AttributeError
  end.

(** [event.callbacks.append(<arg>)]: the attribute [append] is looked up on
    [event.callbacks] before the argument is evaluated. *)
Definition callbacks_append (event : Event) (arg : Result Callback) : Result Event :=
  match callbacks event with
  | None => Raise AttributeError
  | Some cbs => cb ← arg; Ok (set_callbacks event (Some (cbs ++ [cb])))
  end.

(** [event.callbacks += self._subscriptions_lookup[topic]] *)
Definition callbacks_iadd (m : ComponentManager) (event : Event) (tp : EventTopic.t)
  : Result (ComponentManager * Event) :=
  let '(d, l) := defaultdict_getitem (_subscriptions_lookup m) tp in
  match callbacks event with
  | None => Raise TypeError
  | Some cbs =>
      Ok ({| _components := _components m;
             _component_lookup := _component_lookup m;
             _subscriptions_lookup := d;
             event_log := event_log m |},
          set_callbacks event (Some (cbs ++ l)))
  end.

(** The broadcast branch: [topic = getattr(event, "topic", None)] ... *)
Definition attach_subscribers (m : ComponentManager) (event : Event)
  : Result (ComponentManager * Event) :=
  match topic event with
  | Some tp => callbacks_iadd m event tp
  | None => Ok (m, event)
  end.

(** [not self.components] *)
Definition no_components (m : ComponentManager) : bool :=
  match _components m with
  | None | Some [] => true
  | Some (_ :: _) => false
  end.

(** [ComponentManager.trigger_event]: the manager and the event, both
    possibly mutated, or the exception raised. *)
Definition trigger_event (m : ComponentManager) (event : Event)
  : Result (ComponentManager * Event) :=
  if no_components m then Ok (m, event)
  else if isinstance event SimLogProcess then
    match single_reference event with
    | Some r =>
        event' ← callbacks_append event (component_lookup_listen m r); Ok (m, event')
    | None => attach_subscribers m event
    end
  else if isinstance event SimLogTargetedTimeout || isinstance event SimLogUuidRefEvent then
    event' ← callbacks_append event
               (r ← getattr_single_reference event; component_lookup_listen m r);
    Ok (m, event')
  else if isinstance event SimLogSingleRefEvent then
    event' ← callbacks_append event
               (r ← getattr_single_reference event;
                match r with
                | RefComponent c => Ok (listen c)
                | RefNone | RefUuid _ => Raise AttributeError
                end);
    Ok (m, event')
  else if isinstance event SimLogTimeout || isinstance event SimLogInitialize
          || isinstance event BaseSimLogEvent then
    attach_subscribers m event
  else Ok (m, event).

(** An entry of the schedule: [(time, priority, eid, event)]. *)
Abbreviation QItem := (Z * Z * nat * Event)%type.

(** The label logged for [_event.parent]. *)
Definition parent_label (m : ComponentManager) (h : Store) (p : Parent) : option string :=
  match p with
  | ParentUuid u => get_component_name_by_uuid m h u
  | ParentStr s => if String.eqb s "" then None else Some s
  | ParentComponent c => name <$> h !! c
  | ParentNone => None
  end.

(** The [component_state] read by [log_event]:
    [if hasattr(_event, "component_state") and _event.component_state:
         component_state = _event.component_state.value] *)
Definition state_label (_event : Event) : Result (option string) :=
  match component_state _event with
  | Some s => if truthy s then v ← getattr_value s; Ok (Some v) else Ok None
  | None => Ok None
  end.

(** The label logged for the single recipient. *)
Definition single_reference_label (m : ComponentManager) (h : Store) (_event : Event)
  : Result (option string) :=
  if isinstance _event SimLogSingleRefEvent then
    r ← getattr_single_reference _event;
    match r with
    | RefUuid u => Ok (get_component_name_by_uuid m h u)
    | RefComponent c => Ok (name <$> h !! c)
    | RefNone => Ok None
    end
  else if isinstance _event SimLogUuidRefEvent then
    r ← getattr_single_reference _event;
    match r with
    | RefUuid u => Ok (get_component_name_by_uuid m h u)
    | RefComponent _ | RefNone => Ok None
    end
  else Ok None.

(** The payload as logged.  [VComponent] is an instance of the
    [BaseComponent] class that component_manager.py imports, the one of
    [src.simlog.engine.base]. *)
Definition value_label (m : ComponentManager) (h : Store) (v : PyVal) : PyVal :=
  match v with
  | VComponent c => from_option VStr VNone (name <$> h !! c)
  | VUuid u => from_option VStr VNone (get_component_name_by_uuid m h u)
  | VInterrupt cause => VDict "interruption cause" cause
  | _ => v
  end.

(** [ComponentManager.log_event]: the manager with its log extended, or the
    exception raised. *)
Definition log_event (m : ComponentManager) (h : Store) (event : QItem)
  : Result ComponentManager :=
  let '(sim_time, prio, eid, _event) := event in
  if isinstance _event Initialize || isinstance _event Timeout then Ok m
  else
    '(topic_, parent_, component_state_) ←
      (if isinstance _event BaseSimLogEvent || isinstance _event SimLogSingleRefEvent
          || isinstance _event SimLogProcess || isinstance _event SimLogInitialize
       then
         let topic_ := EventTopic.value <$> topic _event in
         let parent_ := parent_label m h (parent _event) in
         component_state_ ← state_label _event;
         Ok (topic_, parent_, component_state_)
       else Ok (None, None, None));
    match topic_ with
    | None => Ok m
    | Some tv =>
        single_reference_ ← single_reference_label m h _event;
        v ← Event_value _event;
        Ok {| _components := _components m;
              _component_lookup := _component_lookup m;
              _subscriptions_lookup := _subscriptions_lookup m;
              event_log := event_log m ++
                [{| LoggedEvent.topic := EventTopicValue.value tv;
                    LoggedEvent.parent := parent_;
                    LoggedEvent.single_reference := single_reference_;
                    LoggedEvent.sim_time := sim_time;
                    LoggedEvent.value := value_label m h v;
                    LoggedEvent.simpy_id := eid;
                    LoggedEvent.simpy_priority := prio;
                    LoggedEvent.component_state := component_state_ |}] |}
    end.

(** ** engine/environment.py and the simpy scheduler it extends *)

Record SimLogEnvironment := {
  _now : Z;
  _eid : nat;
  _queue : list QItem;
  manager : option ComponentManager;
  event_logging : bool;
}.

(** The whole simulation: the environment and the component objects. *)
Record World := {
  env : SimLogEnvironment;
  store : Store;
}.

(** Python's tuple comparison on schedule entries.  The event itself is never
    reached: [eid] values are pairwise different. *)
Definition item_ltb (a b : QItem) : bool :=
  let '(t1, p1, i1, _) := a in
  let '(t2, p2, i2, _) := b in
  (t1 <? t2) || ((t1 =? t2) && ((p1 <? p2) || ((p1 =? p2) && (i1 <? i2)%nat))).

(** Modelled from the spec: [heapq] is the standard library's, and the spec
    has it as a priority queue ordered by [(fire_time, priority, sequence)]
    ascending.  [heappush] adds an entry, [heappop] removes the least one
    and [_queue[0]] is the least one: the queue is kept as the ascending
    list of its entries. *)
Fixpoint heappush (q : list QItem) (x : QItem) : list QItem :=
  match q with
  | [] => [x]
  | y :: q' => if item_ltb x y then x :: y :: q' else y :: heappush q' x
  end.

Definition heappop (q : list QItem) : option (QItem * list QItem) :=
  match q with
  | [] => None
  | x :: q' => Some (x, q')
  end.

Definition set_queue (e : SimLogEnvironment) (now : Z) (eid : nat) (q : list QItem)
  : SimLogEnvironment :=
  {| _now := now; _eid := eid; _queue := q;
     manager := manager e; event_logging := event_logging e |}.

Definition set_manager (e : SimLogEnvironment) (m : option ComponentManager)
  : SimLogEnvironment :=
  {| _now := _now e; _eid := _eid e; _queue := _queue e;
     manager := m; event_logging := event_logging e |}.

(** Modelled from the spec: simpy's [Environment.schedule] is not part of
    the sources.  It inserts [(now + delay, priority, sequence, event)],
    the tuple [log_event]'s docstring recalls:
    [(self._now + delay, priority, next(self._eid), event)]. *)
Definition schedule (e : SimLogEnvironment) (event : Event) (priority delay : Z)
  : SimLogEnvironment :=
  set_queue e (_now e) (S (_eid e))
    (heappush (_queue e) (_now e + delay, priority, _eid e, event)).

(** [self._now, _, _, event = heappop(self._queue)]: the entry removed and
    the environment with its clock advanced, or [None] on an empty queue. *)
Definition pop (e : SimLogEnvironment) : option (QItem * SimLogEnvironment) :=
  match heappop (_queue e) with
  | None => None
  | Some ((t, prio, eid, event), q) =>
      Some ((t, prio, eid, event), set_queue e t (_eid e) q)
  end.

Definition SimLogEnvironment_init (initial_time : Z) (manager : option ComponentManager)
    (event_logging : bool) : SimLogEnvironment :=
  {| _now := initial_time; _eid := O; _queue := [];
     manager := manager; event_logging := event_logging |}.

Definition trigger (event : Event) (ok : bool) (value : PyVal) : Event :=
  {| cls := cls event; topic := topic event; parent := parent event;
     component_state := component_state event; cause := cause event;
     single_reference := single_reference event; callbacks := callbacks event;
     _value := Some value; _ok := Some ok; _defused := _defused event |}.

(** Modelled from the spec: simpy's [Event.succeed] is not part of the
    sources.  It sets the payload and the outcome of the event and schedules
    it at the current time, with no delay and normal priority; an event
    already triggered is refused. *)
Definition succeed (e : SimLogEnvironment) (event : Event) (value : PyVal)
  : Result (Event * SimLogEnvironment) :=
  match _value event with
  | Some _ => Raise RuntimeError
  | None =>
      let event' := trigger event true value in
      Ok (event', schedule e event' NORMAL 0)
  end.

(** *** The event constructors of events/events.py *)

Definition BaseSimLogEvent_init (c : EventClass) (topic : option EventTopic.t)
    (parent : Parent) (cause : option nat) : Event :=
  {| cls := c; topic := topic; parent := parent; component_state := Some SNone;
     cause := cause; single_reference := None; callbacks := Some [];
     _value := None; _ok := None; _defused := false |}.

Definition set_single_reference (event : Event) (r : SingleRef) (cause : option nat) : Event :=
  {| cls := cls event; topic := topic event; parent := parent event;
     component_state := component_state event; cause := cause;
     single_reference := Some r; callbacks := callbacks event;
     _value := _value event; _ok := _ok event; _defused := _defused event |}.

Definition set_component_state (event : Event) (s : StateTag) : Event :=
  {| cls := cls event; topic := topic event; parent := parent event;
     component_state := Some s; cause := cause event;
     single_reference := single_reference event; callbacks := callbacks event;
     _value := _value event; _ok := _ok event; _defused := _defused event |}.

(** [SimLogTimeout.__init__]; a negative delay is refused before the event
    is scheduled. *)
Definition SimLogTimeout_init (e : SimLogEnvironment) (delay : Z)
    (topic : option EventTopic.t) (parent : Parent) (value : PyVal) (cause : option nat)
  : Result (Event * SimLogEnvironment) :=
  let self := trigger (BaseSimLogEvent_init SimLogTimeout topic parent cause) true value in
  if delay <? 0 then Raise ValueError
  else Ok (self, schedule e self NORMAL delay).

(** [SimLogTargetedTimeout.__init__].  The schedule holds the object, so the
    [single_reference] set after [super().__init__] is the one seen when the
    event fires. *)
Definition SimLogTargetedTimeout_init (e : SimLogEnvironment) (delay : Z)
    (topic : option EventTopic.t) (parent : Parent) (single_reference : SingleRef)
    (value : PyVal) (cause : option nat)
  : Result (Event * SimLogEnvironment) :=
  let self := trigger (BaseSimLogEvent_init SimLogTargetedTimeout topic parent cause)
                true value in
  let self := set_single_reference self single_reference cause in
  if delay <? 0 then Raise ValueError
  else Ok (self, schedule e self NORMAL delay).

Definition SimLogSingleRefEvent_init (topic : option EventTopic.t)
    (single_reference : SingleRef) (parent : Parent) (cause : option nat) : Event :=
  set_single_reference (BaseSimLogEvent_init SimLogSingleRefEvent topic parent None)
    single_reference cause.

Definition SimLogUuidRefEvent_init (topic : option EventTopic.t)
    (single_reference : SingleRef) (parent : Parent) (cause : option nat) : Event :=
  set_single_reference (BaseSimLogEvent_init SimLogUuidRefEvent topic parent None)
    single_reference cause.

(** [SimLogInitialize.__init__]: the start event of a process, scheduled
    urgently with the process's [_resume] as its callback. *)
Definition SimLogInitialize_init (e : SimLogEnvironment) (process : nat)
    (topic : option EventTopic.t) (parent : Parent) : Event * SimLogEnvironment :=
  let self := BaseSimLogEvent_init SimLogInitialize topic parent None in
  let self := set_callbacks self (Some [_resume process]) in
  let self := trigger self true VNone in
  (self, schedule e self URGENT 0).

(** [SimLogProcess.__init__]: [is_generator] is [hasattr(generator, "throw")];
    the result is the process event (not scheduled yet) and its start event. *)
Definition SimLogProcess_init (e : SimLogEnvironment) (process : nat) (is_generator : bool)
    (start_topic end_topic : option EventTopic.t) (parent : Parent) (target : option UUID)
  : Result (Event * Event * SimLogEnvironment) :=
  if negb is_generator then Raise ValueError
  else
    let '(_target, e') := SimLogInitialize_init e process start_topic parent in
    Ok ({| cls := SimLogProcess; topic := end_topic; parent := parent;
           component_state := None; cause := None;
           single_reference := RefUuid <$> target; callbacks := Some [];
           _value := None; _ok := None; _defused := false |},
        _target, e').

(** *** [SimLogEnvironment.step] and simpy's [run] *)

(** The copy of the failure that [step] raises, built from the type and the
    [args] of [event._value]; a value without [args] gives an
    AttributeError. *)
Definition failure_copy (v : option PyVal) : Exn :=
  match v with
  | Some (VException ty msg) => PyException ty msg
  | Some (VInterrupt cause_) => PyException "Interrupt" cause_
  | _ => AttributeError
  end.

(** The outcome of [run]. *)
Inductive RunOutcome :=
| Running (w : World)
| Stopped
| Crashed (e : Exn).

Section Callbacks.

(** What calling a callback does: [listen] is abstract in the source and
    a process's [_resume] belongs to simpy, so the behaviour of callbacks
    is a parameter.  A callback receives the fired event, which it may
    mutate (defuse), and the world. *)
Variable call : Callback -> Event -> World -> Result (Event * World).

(** [for callback in callbacks: callback(event)] *)
Fixpoint call_all (cbs : list Callback) (event : Event) (w : World)
  : Result (Event * World) :=
  match cbs with
  | [] => Ok (event, w)
  | cb :: cbs' => '(event', w') ← call cb event w; call_all cbs' event' w'
  end.

(** The part of [step] added to simpy's: resolve the recipients of the
    head of the queue and log it.  The event is mutated in place, so the
    head entry carries the attached callbacks. *)
Definition notify (m : ComponentManager) (w : World) : Result World :=
  match _queue (env w) with
  | [] => Ok w
  | (t, prio, eid, event) :: rest =>
      '(m1, event1) ← trigger_event m event;
      m2 ← (if event_logging (env w)
            then log_event m1 (store w) (t, prio, eid, event1)
            else Ok m1);
      Ok {| env := set_manager
                     (set_queue (env w) (_now (env w)) (_eid (env w))
                        ((t, prio, eid, event1) :: rest))
                     (Some m2);
            store := store w |}
  end.

(** [step] up to the end of the callback loop: the fired event as the
    callbacks left it, and the world. *)
Definition fire (w : World) : Result (Event * World) :=
  match manager (env w) with
  | None => Raise UnsetManager
  | Some m =>
      w1 ← notify m w;
      match pop (env w1) with
      | None => Raise EmptySchedule
      | Some ((_, _, _, event), e2) =>
          let w2 := {| env := e2; store := store w1 |} in
          match callbacks event with
          | None => Raise TypeError
          | Some cbs => call_all cbs (set_callbacks event None) w2
          end
      end
  end.

(** [SimLogEnvironment.step] *)
Definition step (w : World) : Result World :=
  '(event, w') ← fire w;
  match _ok event with
  | None => Raise AttributeError
  | Some ok =>
      if negb ok && negb (_defused event)
      then Raise (failure_copy (_value event))
      else Ok w'
  end.

(** Modelled from the spec: simpy's [Environment.run] is not part of the
    sources.  It loops [step]; the stop event of [run(until)] ends the loop
    by raising StopSimulation from its callback, an empty schedule is a
    normal end of the run, and any other exception leaves [run]. *)
Fixpoint run (fuel : nat) (w : World) : RunOutcome :=
  match fuel with
  | O => Running w
  | S fuel' =>
      match step w with
      | Ok w' => run fuel' w'
      | Raise StopSimulation | Raise EmptySchedule => Stopped
      | Raise e => Crashed e
      end
  end.

(** The schedule entries that [run] fires, in firing order: the head of the
    queue at each [step] that gets as far as running the callbacks. *)
Fixpoint fired (fuel : nat) (w : World) : list QItem :=
  match fuel with
  | O => []
  | S fuel' =>
      match _queue (env w), fire w with
      | x :: _, Ok (_, w') =>
          x :: match step w with
               | Ok _ => fired fuel' w'
               | Raise _ => []
               end
      | _, _ => []
      end
  end.

End Callbacks.

(** ** engine/base.py: the methods of [BaseComponent] *)

(** [BaseComponent.__init__]; [class_name] is [self.__class__.__name__] and
    [uuid4] the value [uuid.uuid4()] would draw. *)
Definition BaseComponent_init (e : SimLogEnvironment) (unique_id : option UUID)
    (subscriptions : option (list EventTopic.t)) (name_ : option string)
    (class_name : string) (uuid4 : UUID) : BaseComponent :=
  {| uuid := default uuid4 unique_id;
     name := match name_ with
             | Some n => if String.eqb n "" then class_name else n
             | None => class_name
             end;
     _subscriptions := default [] subscriptions;
     last_time_state_updated := _now e;
     state := SNone |}.

(** The [subscriptions] property setter. *)
Definition subscriptions_setter (c : BaseComponent) (subscriptions : list EventTopic.t)
  : BaseComponent :=
  {| uuid := uuid c; name := name c; _subscriptions := subscriptions;
     last_time_state_updated := last_time_state_updated c; state := state c |}.

Definition set_state (c : BaseComponent) (s : StateTag) : BaseComponent :=
  {| uuid := uuid c; name := name c; _subscriptions := _subscriptions c;
     last_time_state_updated := last_time_state_updated c; state := s |}.

Definition deref (w : World) (self : CompRef) : Result BaseComponent :=
  match store w !! self with
  | Some c => Ok c
  | None => Raise DanglingReference
  end.

(** The [location] argument of [update_state]: [UUID | str | None]. *)
Inductive Location :=
| LocNone
| LocUuid (u : UUID)
| LocStr (s : string).

(** The first statement of [update_state]: a UUID location is replaced by
    the component name the manager knows for it ([self.env.manager] may
    still be [None]). *)
Definition resolve_location (w : World) (location : Location) : Result PyVal :=
  match location with
  | LocUuid u =>
      match manager (env w) with
      | None => Raise AttributeError
      | Some m => Ok (from_option VStr VNone (get_component_name_by_uuid m (store w) u))
      end
  | LocStr s => Ok (VStr s)
  | LocNone => Ok VNone
  end.

(** The event [update_state] builds once [self.state] is updated:
    [BaseSimLogEvent(env, topic=STATE_CHANGE, parent=self.uuid)] with
    [event.component_state = self.state]. *)
Definition state_change_event (self : BaseComponent) : Event :=
  set_component_state
    (BaseSimLogEvent_init BaseSimLogEvent (Some EventTopic.STATE_CHANGE)
       (ParentUuid (uuid self)) None)
    (state self).

(** [BaseComponent.update_state] *)
Definition update_state (self : CompRef) (new_state : StateTag) (location : Location)
    (w : World) : Result World :=
  component ← deref w self;
  location_ ← resolve_location w location;
  if py_is new_state (state component) then Ok w
  else
    let component' := set_state component new_state in
    '(_, e') ← succeed (env w) (state_change_event component') location_;
    Ok {| env := e'; store := <[self := component']> (store w) |}.

(** [BaseComponent.start_process] *)
Definition start_process (self : CompRef) (process : nat) (is_generator : bool)
    (start_topic end_topic : EventTopic.t) (target : option UUID) (w : World)
  : Result (Event * World) :=
  component ← deref w self;
  '(p, _, e') ← SimLogProcess_init (env w) process is_generator
                  (Some start_topic) (Some end_topic) (ParentUuid (uuid component)) target;
  Ok (p, {| env := e'; store := store w |}).

(** Truth value of the [timeout] argument ([int | None]). *)
Definition timeout_truthy (timeout : option Z) : bool :=
  match timeout with
  | Some z => negb (z =? 0)
  | None => false
  end.

(** Truth value of the [target] argument: every [UUID] object is true. *)
Definition target_truthy (target : option UUID) : bool :=
  match target with
  | Some _ => true
  | None => false
  end.

(** [BaseComponent.create_event] *)
Definition create_event (self : CompRef) (topic_ : EventTopic.t) (target : option UUID)
    (cause_ : option nat) (value : PyVal) (timeout : option Z) (w : World)
  : Result (Event * World) :=
  component ← deref w self;
  let parent_ := ParentUuid (uuid component) in
  let single_reference_ := from_option RefUuid RefNone target in
  '(event, e') ←
    (if negb (target_truthy target || timeout_truthy timeout) then
       succeed (env w) (BaseSimLogEvent_init BaseSimLogEvent (Some topic_) parent_ cause_) value
     else if negb (timeout_truthy timeout) then
       succeed (env w)
         (SimLogUuidRefEvent_init (Some topic_) single_reference_ parent_ cause_) value
     else if timeout_truthy timeout && negb (target_truthy target) then
       SimLogTimeout_init (env w) (default 0 timeout) (Some topic_) parent_ value cause_
     else if timeout_truthy timeout && target_truthy target then
       SimLogTargetedTimeout_init (env w) (default 0 timeout) (Some topic_) parent_
         single_reference_ value cause_
     else Raise ValueError);
  Ok (event, {| env := e'; store := store w |}).

(** ** Definitions used in the statements *)

(** *** Dispatch, logging and the component methods *)

(** The manager with its log replaced. *)
Definition with_log (m : ComponentManager) (log : list LoggedEvent.t) : ComponentManager :=
  {| _components := _components m;
     _component_lookup := _component_lookup m;
     _subscriptions_lookup := _subscriptions_lookup m;
     event_log := log |}.

(** The exception an unresolvable target raises: the lookup fails with a
    KeyError, unless the event has no callback list left to append to. *)
Definition unknown_target_error (event : Event) : Exn :=
  match callbacks event with
  | Some _ => KeyError
  | None => AttributeError
  end.

(** The [single_reference] does not name a registered component. *)
Definition unregistered (m : ComponentManager) (r : SingleRef) : Prop :=
  match r with
  | RefUuid u => get_component_by_uuid m u = None
  | RefNone | RefComponent _ => True
  end.

(** The listeners one component contributes to a topic: one per occurrence
    of the topic in its subscriptions, as they are in the store [h]. *)
Definition subscribers_of (h : Store) (tp : EventTopic.t) (c : CompRef) : list Callback :=
  match h !! c with
  | Some component => (λ _, listen c) <$> filter (λ t, t = tp) (_subscriptions component)
  | None => []
  end.

(** The listeners the components [cs] declare for a topic, in registration
    order, read from their subscriptions in the store [h]. *)
Definition declared_subscribers (h : Store) (cs : list CompRef) (tp : EventTopic.t)
  : list Callback :=
  cs ≫= subscribers_of h tp.

(** The events [trigger_event] resolves by topic. *)
Definition is_broadcast (event : Event) : bool :=
  match cls event with
  | BaseSimLogEvent | SimLogTimeout | SimLogInitialize => true
  | SimLogProcess => bool_decide (single_reference event = None)
  | _ => false
  end.

(** The callback list of the event after [trigger_event]. *)
Definition attached (r : Result (ComponentManager * Event)) : Result (option (list Callback)) :=
  (λ p, callbacks p.2) <$> r.

(** The record written for the start event of a process. *)
Definition start_record (m : ComponentManager) (h : Store) (sim_time prio : Z) (eid : nat)
    (tp : EventTopic.t) (p : Parent) : LoggedEvent.t :=
  {| LoggedEvent.topic := EventTopicValue.value (EventTopic.value tp);
     LoggedEvent.parent := parent_label m h p;
     LoggedEvent.single_reference := None;
     LoggedEvent.sim_time := sim_time;
     LoggedEvent.value := VNone;
     LoggedEvent.simpy_id := eid;
     LoggedEvent.simpy_priority := prio;
     LoggedEvent.component_state := None |}.

(** The decision table of [create_event]'s docstring: the class produced
    for a given [target] and a given delay. *)
Definition variant_table (target : option UUID) (timeout : option Z) : EventClass :=
  match target, timeout with
  | None, None => BaseSimLogEvent
  | Some _, None => SimLogUuidRefEvent
  | None, Some _ => SimLogTimeout
  | Some _, Some _ => SimLogTargetedTimeout
  end.

(** The class of the event a call returned. *)
Definition produced (r : Result (Event * World)) : Result EventClass :=
  (λ p, cls p.1) <$> r.

(** No callback defuses the event it is called with, or changes its
    outcome. *)
Definition keeps_flags (call : Callback → Event → World → Result (Event * World)) : Prop :=
  ∀ cb event w event' w',
    call cb event w = Ok (event', w') →
    _ok event' = _ok event ∧ _defused event' = _defused event.

(** *** Runs of the scheduler *)

(** What touches the schedule during a run: a call of [schedule] (from
    [succeed], from the constructor of a timeout or of a process start
    event, from a callback) and the [heappop] of a [step]. *)
Inductive Op :=
| OpSchedule (event : Event) (priority delay : Z)
| OpStep.

(** The entries fired by a sequence of operations, in firing order, and the
    environment reached.  A [step] on an empty schedule raises, which ends
    the run. *)
Fixpoint exec (ops : list Op) (e : SimLogEnvironment) : list QItem * SimLogEnvironment :=
  match ops with
  | [] => ([], e)
  | OpSchedule event priority delay :: ops' => exec ops' (schedule e event priority delay)
  | OpStep :: ops' =>
      match pop e with
      | None => ([], e)
      | Some (x, e') => let '(fired, e'') := exec ops' e' in (x :: fired, e'')
      end
  end.

(** [delay >= 0], as every constructor that takes a delay checks. *)
Definition valid_delay (op : Op) : Prop :=
  match op with
  | OpSchedule _ _ delay => 0 ≤ delay
  | OpStep => True
  end.

(** The components of a schedule entry. *)
Definition fire_time (x : QItem) : Z := x.1.1.1.
Definition priority (x : QItem) : Z := x.1.1.2.
Definition sequence (x : QItem) : nat := x.1.2.

(** The part of an entry that orders the schedule. *)
Definition key (x : QItem) : Z * Z * nat := (fire_time x, priority x, sequence x).

(** Firing order is non-decreasing in time. *)
Definition time_ordered (fired : list QItem) : Prop :=
  ∀ i j a b, (i < j)%nat → fired !! i = Some a → fired !! j = Some b →
             fire_time a ≤ fire_time b.

(** Among entries with the same time and priority, firing order is schedule
    order. *)
Definition fifo (fired : list QItem) : Prop :=
  ∀ i j a b, (i < j)%nat → fired !! i = Some a → fired !! j = Some b →
             fire_time a = fire_time b → priority a = priority b →
             (sequence a < sequence b)%nat.

(** Firing order is the ascending order on [(time, priority, eid)]. *)
Definition ascending (fired : list QItem) : Prop :=
  ∀ i j a b, (i < j)%nat → fired !! i = Some a → fired !! j = Some b →
             item_ltb a b = true.

(** The entry [b] bears a later number than [a] and is due at the same
    time with a more urgent priority: scheduled once [a] had fired, it can
    only fire after [a], although it comes before [a] in the order on
    [(time, priority, eid)]. *)
Definition late_urgent (a b : QItem) : Prop :=
  fire_time a = fire_time b ∧ priority b < priority a ∧ (sequence a < sequence b)%nat.

(** Firing order is ascending but for such entries. *)
Definition ascending_but_late (fired : list QItem) : Prop :=
  ∀ i j a b, (i < j)%nat → fired !! i = Some a → fired !! j = Some b →
             item_ltb a b = true ∨ late_urgent a b.

(** The entry is the least of the schedule [q] it is taken from, in the
    order on [(time, priority, eid)]; no other entry has its [eid]. *)
Definition least_of (x : QItem) (rest : list QItem) : Prop :=
  ∀ y, y ∈ rest → item_ltb x y = true ∧ sequence x ≠ sequence y.

(** The invariant of the schedule: the queue is ascending, nothing in it
    lies in the past, every entry was numbered by the counter and no two
    entries have the same number. *)
Definition sched_inv (e : SimLogEnvironment) : Prop :=
  StronglySorted (λ x y, item_ltb x y = true) (_queue e) ∧
  Forall (λ x, _now e ≤ fire_time x ∧ (sequence x < _eid e)%nat) (_queue e) ∧
  NoDup (sequence <$> _queue e).

(** The scheduler's part of an environment: clock, counter and queue. *)
Definition sched (e : SimLogEnvironment) : Z * nat * list QItem :=
  (_now e, _eid e, _queue e).

(** Callbacks reach the schedule through [schedule] only, with delays that
    are not negative: what a callback that returns has done to the schedule
    is what some sequence of [schedule] calls does. *)
Definition only_schedules (call : Callback → Event → World → Result (Event * World)) : Prop :=
  ∀ cb event w event' w',
    call cb event w = Ok (event', w') →
    ∃ ops, Forall valid_delay ops ∧ Forall (λ op, op ≠ OpStep) ops ∧
           sched (env w') = sched (exec ops (env w)).2.

(** ** Example components, events and worlds *)

(** One component, with identifier 1 and subscribed to DUMMY_EVENT. *)
Definition component_A : BaseComponent :=
  BaseComponent_init (SimLogEnvironment_init 0 None true) (Some 1%N)
    (Some [EventTopic.DUMMY_EVENT]) (Some "A") "BaseComponent" 0%N.

Definition store_A : Store := {[ O := component_A ]}.

Definition manager_A : ComponentManager := ComponentManager_init store_A (Some [O]).

(** A world holding [component_A] alone, at time 0, with logging enabled. *)
Definition world_A : World :=
  {| env := SimLogEnvironment_init 0 (Some manager_A) true; store := store_A |}.

(** [world_A] after [component_A.update_state("busy")]. *)
Definition world_A' : World :=
  {| env := schedule (env world_A)
              (trigger (state_change_event (set_state component_A (SStr 1 "busy")))
                 true VNone)
              NORMAL 0;
     store := <[O := set_state component_A (SStr 1 "busy")]> store_A |}.

(** [world_A] five time units later. *)
Definition world_A_at_5 : World :=
  {| env := set_queue (env world_A) 5 O []; store := store_A |}.

(** A second component, with identifier 2 and no subscription. *)
Definition component_B : BaseComponent :=
  BaseComponent_init (SimLogEnvironment_init 0 None true) (Some 2%N)
    (Some []) (Some "B") "BaseComponent" 0%N.

Definition store_AB : Store := {[ O := component_A; 1%nat := component_B ]}.

Definition manager_AB : ComponentManager := ComponentManager_init store_AB (Some [O; 1%nat]).

Definition world_AB : World :=
  {| env := SimLogEnvironment_init 0 (Some manager_AB) true; store := store_AB |}.

(** [store_AB] after [A.subscriptions = []] and
    [B.subscriptions = [DUMMY_EVENT]]. *)
Definition store_AB_swapped : Store :=
  {[ O := subscriptions_setter component_A [];
     1%nat := subscriptions_setter component_B [EventTopic.DUMMY_EVENT] ]}.

(** A [SimLogUuidRefEvent] aimed at an identifier nobody registered. *)
Definition stray_event : Event :=
  SimLogUuidRefEvent_init (Some EventTopic.DUMMY_EVENT) (RefUuid 7%N) ParentNone None.

(** The event [A.create_event(topic=DUMMY_EVENT)] schedules. *)
Definition broadcast_event : Event :=
  trigger (BaseSimLogEvent_init BaseSimLogEvent (Some EventTopic.DUMMY_EVENT)
             (ParentUuid 1%N) None) true VNone.

(** The start event of a process of component A. *)
Definition start_event : Event :=
  (SimLogInitialize_init (SimLogEnvironment_init 0 None true) O
     (Some EventTopic.DUMMY_EVENT) (ParentUuid 1%N)).1.

(** The completion event of a process whose routine raised: simpy triggers
    it with [_ok = False] and the exception as its value. *)
Definition failed_process : Event :=
  {| cls := SimLogProcess; topic := Some EventTopic.DUMMY_EVENT; parent := ParentUuid 1%N;
     component_state := None; cause := None; single_reference := None;
     callbacks := Some []; _value := Some (VException "ValueError" "boom");
     _ok := Some false; _defused := false |}.

(** The record logged for [failed_process] fired at time 3. *)
Definition failed_record : LoggedEvent.t :=
  {| LoggedEvent.topic := "DUMMY_EVENT";
     LoggedEvent.parent := Some "A";
     LoggedEvent.single_reference := None;
     LoggedEvent.sim_time := 3;
     LoggedEvent.value := VException "ValueError" "boom";
     LoggedEvent.simpy_id := O;
     LoggedEvent.simpy_priority := NORMAL;
     LoggedEvent.component_state := None |}.

(** [world_A] with that event scheduled at time 3. *)
Definition world_failed : World :=
  {| env := set_queue (env world_A) 0 1%nat [(3, NORMAL, O, failed_process)];
     store := store_A |}.

(** [world_failed] once the event has been popped and its callbacks run. *)
Definition world_failed_fired : World :=
  {| env := set_manager (set_queue (env world_A) 3 1%nat [])
              (Some (with_log manager_A [failed_record]));
     store := store_A |}.

(** Two events scheduled at time 0, a step, and two more events scheduled
    after it for the same time, one of them urgent. *)
Definition sample_ops : list Op :=
  [ OpSchedule broadcast_event NORMAL 5;
    OpSchedule stray_event NORMAL 0;
    OpStep;
    OpSchedule start_event URGENT 5;
    OpSchedule broadcast_event NORMAL 5 ].

(** A callback behaviour under which every callback returns at once. *)
Definition idle : Callback → Event → World → Result (Event * World) :=
  λ _ event w, Ok (event, w).

Definition NOTIFIED : StateTag := SEnum "NOTIFIED" "notified".

(** A callback behaviour under which [listen] marks its component as
    notified and every other callback returns at once. *)
Definition mark : Callback → Event → World → Result (Event * World) :=
  λ cb event w,
    match cb with
    | listen c =>
        match store w !! c with
        | Some component =>
            Ok (event, {| env := env w;
                          store := <[c := set_state component NOTIFIED]> (store w) |})
        | None => Raise DanglingReference
        end
    | _ => Ok (event, w)
    end.

(** A callback behaviour under which a listener answers every event by
    [self.create_event(topic=DUMMY_EVENT, timeout=2)]. *)
Definition relay : Callback → Event → World → Result (Event * World) :=
  λ cb event w,
    match cb with
    | listen c =>
        '(_, w') ← create_event c EventTopic.DUMMY_EVENT None None VNone (Some 2) w;
        Ok (event, w')
    | _ => Ok (event, w)
    end.

(** A callback behaviour under which a listener answers every event by
    starting a process,
    [self.start_process(routine(), start_topic=STATE_CHANGE,
                        end_topic=STATE_CHANGE)],
    and every other callback returns at once. *)
Definition starter : Callback → Event → World → Result (Event * World) :=
  λ cb event w,
    match cb with
    | listen c =>
        '(_, w') ← start_process c O true EventTopic.STATE_CHANGE EventTopic.STATE_CHANGE
                     None w;
        Ok (event, w')
    | _ => Ok (event, w)
    end.

(** ** Definitions used in the further properties *)

(** The component of the list [cs] that answers to the identifier [u]: the
    last one carrying it, as later assignments to a dict key replace
    earlier ones. *)
Definition last_with_uuid (h : Store) (cs : list CompRef) (u : UUID) : option CompRef :=
  last (filter (λ c, uuid <$> h !! c = Some u) cs).

(** The classes that are simpy's own, outside the SimLog hierarchy. *)
Definition is_simpy_class (c : EventClass) : bool :=
  match c with
  | Event_ | Timeout | Initialize | Process => true
  | _ => false
  end.

(** The event with one more callback. *)
Definition with_callback (event : Event) (cbs : list Callback) (cb : Callback) : Event :=
  set_callbacks event (Some (cbs ++ [cb])).

(** A [SimLogTargetedTimeout] aimed at component A. *)
Definition targeted_event : Event :=
  set_single_reference
    (trigger (BaseSimLogEvent_init SimLogTargetedTimeout (Some EventTopic.DUMMY_EVENT)
                (ParentUuid 1%N) None) true VNone)
    (RefUuid 1%N) None.

(** A [SimLogSingleRefEvent] holding a component object that no manager
    knows. *)
Definition object_event : Event :=
  trigger (SimLogSingleRefEvent_init (Some EventTopic.DUMMY_EVENT) (RefComponent 5%nat)
             ParentNone None) true VNone.

(** An event of simpy's own [Timeout] class. *)
Definition raw_timeout : Event :=
  {| cls := Timeout; topic := None; parent := ParentNone; component_state := None;
     cause := None; single_reference := None; callbacks := Some [];
     _value := Some VNone; _ok := Some true; _defused := false |}.

(** The record [log_event] writes for a schedule entry, given the labels it
    resolved. *)
Definition record_of (item : QItem) (tv : EventTopicValue.t) (parent_ : option string)
    (single_reference_ : option string) (value_ : PyVal) (component_state_ : option string)
  : LoggedEvent.t :=
  {| LoggedEvent.topic := EventTopicValue.value tv;
     LoggedEvent.parent := parent_;
     LoggedEvent.single_reference := single_reference_;
     LoggedEvent.sim_time := fire_time item;
     LoggedEvent.value := value_;
     LoggedEvent.simpy_id := sequence item;
     LoggedEvent.simpy_priority := priority item;
     LoggedEvent.component_state := component_state_ |}.

(** [LoggedEvent.sim_time] is declared a [float] and the times of the
    schedule are [int]s: the field holds the number [float(time)], which is
    the time itself for every integer up to [2^53] in magnitude and a
    rounded value beyond. *)
Definition within_float_precision (t : Z) : Prop := Z.abs t ≤ 2 ^ 53.


(** A [BaseSimLogEvent] without a topic. *)
Definition silent_event : Event :=
  trigger (BaseSimLogEvent_init BaseSimLogEvent None (ParentUuid 1%N) None) true VNone.

(** [world_A] after [A.create_event(topic=DUMMY_EVENT, timeout=5)]. *)
Definition world_A_started : World :=
  {| env := schedule (env world_A) broadcast_event NORMAL 5; store := store_A |}.

(** [event.defused = True] *)
Definition set_defused (event : Event) : Event :=
  {| cls := cls event; topic := topic event; parent := parent event;
     component_state := component_state event; cause := cause event;
     single_reference := single_reference event; callbacks := callbacks event;
     _value := _value event; _ok := _ok event; _defused := true |}.

(** A callback behaviour under which every callback defuses the event. *)
Definition defuse : Callback → Event → World → Result (Event * World) :=
  λ _ event w, Ok (set_defused event, w).

(** The delay [create_event] schedules with: the [timeout] argument when it
    is true, none otherwise. *)
Definition effective_delay (timeout : option Z) : Z :=
  if timeout_truthy timeout then default 0 timeout else 0.

(** [world_A] at time 4 with a normal event pending at that time. *)
Definition world_A_busy : World :=
  {| env := schedule (set_queue (env world_A) 4 O []) broadcast_event NORMAL 0;
     store := store_A |}.

(** The state [update_state] leaves: the current one when [new_state] is
    that same object, the new one otherwise. *)
Definition state_after (c : BaseComponent) (new_state : StateTag) : StateTag :=
  if py_is new_state (state c) then state c else new_state.

(** [world_A] before a manager is attached to the environment. *)
Definition world_A_unattached : World :=
  {| env := SimLogEnvironment_init 0 None true; store := store_A |}.

(** ** data_models/event_log.py: [EventLog] *)

Section Dump.

(** [Loggable] is an interface of the domain objects: [get_loggable_data v]
    is [None] when [v] is not an instance of it, and otherwise the outcome
    of [v.get_loggable_data()], which raises NotImplementedError unless the
    object's class overrides it. *)
Variable get_loggable_data : PyVal → option (Result PyVal).

Definition set_value (log : LoggedEvent.t) (data : PyVal) : LoggedEvent.t :=
  {| LoggedEvent.topic := LoggedEvent.topic log;
     LoggedEvent.parent := LoggedEvent.parent log;
     LoggedEvent.single_reference := LoggedEvent.single_reference log;
     LoggedEvent.sim_time := LoggedEvent.sim_time log;
     LoggedEvent.value := data;
     LoggedEvent.simpy_id := LoggedEvent.simpy_id log;
     LoggedEvent.simpy_priority := LoggedEvent.simpy_priority log;
     LoggedEvent.component_state := LoggedEvent.component_state log |}.

(** [EventLog.convert_log_to_dict]: the dict of the record's fields, with
    the value replaced by its loggable data when it is a [Loggable]. *)
Definition convert_log_to_dict (log : LoggedEvent.t) : Result LoggedEvent.t :=
  match get_loggable_data (LoggedEvent.value log) with
  | Some r => data ← r; Ok (set_value log data)
  | None => Ok log
  end.

(** [[self.convert_log_to_dict(log) for log in self.logs]] *)
Fixpoint convert_logs (logs : list LoggedEvent.t) : Result (list LoggedEvent.t) :=
  match logs with
  | [] => Ok []
  | log :: logs' =>
      d ← convert_log_to_dict log; ds ← convert_logs logs'; Ok (d :: ds)
  end.

(** [{member.value.value: member.value.description for member in event_topic}] *)
Definition event_descriptions (event_topic : list EventTopic.t) : gmap string string :=
  foldl (λ d member,
           <[EventTopicValue.value (EventTopic.value member)
               := EventTopicValue.description (EventTopic.value member)]> d)
        ∅ event_topic.

(** The [dump_dict] that [EventLog.json_dump] builds and hands to
    [json.dump]: the topic catalogue and the records, in order. *)
Definition dump_dict (logs : list LoggedEvent.t) (event_topic : list EventTopic.t)
  : Result (gmap string string * list LoggedEvent.t) :=
  ds ← convert_logs logs; Ok (event_descriptions event_topic, ds).

(** Modelled from the spec: the dump is a JSON document,
    [{"event_descriptions": {...}, "logs": [...]}], and [json.dump] is the
    standard library's encoder, not part of the sources.  It writes [None],
    strings, numbers and dicts of them; any other object (a UUID, a
    component, an exception, an [Interrupt]) makes it raise a TypeError. *)
Definition json_serializable (v : PyVal) : bool :=
  match v with
  | VNone | VStr _ | VInt _ | VDict _ _ => true
  | VUuid _ | VComponent _ | VInterrupt _ | VException _ _ => false
  end.

(** [EventLog.json_dump], on a [path] that can be written: the document
    handed to [json.dump] and written by it, or the exception raised. *)
Definition json_dump (logs : list LoggedEvent.t) (event_topic : list EventTopic.t)
  : Result (gmap string string * list LoggedEvent.t) :=
  d ← dump_dict logs event_topic;
  if forallb (λ log, json_serializable (LoggedEvent.value log)) d.2
  then Ok d
  else Raise TypeError.

End Dump.

(** What identifies a record in the log: topic, parent, recipient, time. *)
Definition record_id (log : LoggedEvent.t) : string * option string * option string * Z :=
  (LoggedEvent.topic log, LoggedEvent.parent log,
   LoggedEvent.single_reference log, LoggedEvent.sim_time log).

(** The topic value of an enumeration member. *)
Definition topic_key (member : EventTopic.t) : string :=
  EventTopicValue.value (EventTopic.value member).

(** The value a record has in the dump. *)
Definition dumped_value (get_loggable_data : PyVal → option (Result PyVal)) (v : PyVal)
  : PyVal :=
  match get_loggable_data v with
  | Some (Ok data) => data
  | _ => v
  end.

(** A record whose value is a plain string: the one logged for
    [broadcast_event] fired at time 5 with the value ["done"]. *)
Definition plain_record : LoggedEvent.t :=
  {| LoggedEvent.topic := "DUMMY_EVENT";
     LoggedEvent.parent := Some "A";
     LoggedEvent.single_reference := None;
     LoggedEvent.sim_time := 5;
     LoggedEvent.value := VStr "done";
     LoggedEvent.simpy_id := 2%nat;
     LoggedEvent.simpy_priority := NORMAL;
     LoggedEvent.component_state := None |}.

(** A domain in which the integers are the loggable values. *)
Definition loggable_ints : PyVal → option (Result PyVal) :=
  λ v, match v with
       | VInt z => Some (Ok (VDict "id" "patient"))
       | _ => None
       end.

(** * Properties *)

(** ** Dispatch: [trigger_event] *)

(** *** The guard on an empty component list *)

Lemma no_components_spec (m : ComponentManager) :
  no_components m = true ↔ _components m = None ∨ _components m = Some [].
Proof.
  unfold no_components. destruct (_components m) as [[|c cs]|]; split; intros H;
    try done; auto; destruct H; done.
Qed.

(** C9. When the manager's component list is [None] or empty,
    [trigger_event] returns at once for every event: the manager and the
    event, in particular its callback list, are left as they were, and no
    exception is raised, whatever the event refers to. *)
Theorem trigger_event_without_components (m : ComponentManager) (event : Event) :
  _components m = None ∨ _components m = Some [] →
  trigger_event m event = Ok (m, event).
Proof.
  intros H. apply no_components_spec in H. unfold trigger_event. by rewrite H.
Qed.

Lemma trigger_event_without_components_witness :
  get_component_by_uuid (ComponentManager_init ∅ (Some [])) 7%N = None ∧
  trigger_event (ComponentManager_init ∅ (Some [])) stray_event
    = Ok (ComponentManager_init ∅ (Some []), stray_event).
Proof.
  split; [reflexivity|].
  apply trigger_event_without_components. right. reflexivity.
Defined.

(** *** Unknown targets *)

Lemma component_lookup_listen_unregistered m r :
  unregistered m r → component_lookup_listen m r = Raise KeyError.
Proof.
  destruct r as [|u|c]; simpl; try done.
  unfold get_component_by_uuid. by intros ->.
Qed.

Lemma register_component_lookup (h : Store) (m : ComponentManager) (c : CompRef) :
  _component_lookup (register h m c)
    = match h !! c with
      | Some component => <[uuid component := c]> (_component_lookup m)
      | None => _component_lookup m
      end.
Proof.
  unfold register. destruct (h !! c) as [component|]; [|done].
  induction (_subscriptions component) as [|tp tps IH] using rev_ind; [done|].
  rewrite foldl_snoc. unfold subscribe at 1.
  by destruct (defaultdict_getitem _ _).
Qed.

Lemma foldl_register_component_lookup (h : Store) (cs : list CompRef)
    (m : ComponentManager) (u : UUID) :
  _component_lookup (foldl (register h) m cs) !! u = None ↔
  _component_lookup m !! u = None ∧
  ∀ c component, c ∈ cs → h !! c = Some component → uuid component ≠ u.
Proof.
  revert m. induction cs as [|c cs IH]; intros m; simpl.
  - split; [|tauto]. intros H. split; [done|]. intros c component Hc. by apply elem_of_nil in Hc.
  - rewrite IH, register_component_lookup. split.
    + intros [Hm Hcs]. destruct (h !! c) as [component|] eqn:Hc.
      * apply lookup_insert_None in Hm as [Hm Hne]. split; [done|].
        intros c' component' Hc' Hh. apply elem_of_cons in Hc' as [->|Hc']; [|by eauto].
        rewrite Hc in Hh. by injection Hh as <-.
      * split; [done|]. intros c' component' Hc' Hh.
        apply elem_of_cons in Hc' as [->|Hc']; [congruence | by eauto].
    + intros [Hm Hcs]. split.
      * destruct (h !! c) as [component|] eqn:Hc; [|done].
        apply lookup_insert_None. split; [done|]. eapply Hcs; [by left | done].
      * intros c' component' Hc'. apply Hcs. by right.
Qed.

(** An identifier is unknown to the manager exactly when no component of
    the list it was given carries it. *)
Lemma components_setter_unregistered (h : Store) (cs : list CompRef)
    (m : ComponentManager) (u : UUID) :
  get_component_by_uuid (components_setter h (Some cs) m) u = None ↔
  ∀ c component, c ∈ cs → h !! c = Some component → uuid component ≠ u.
Proof.
  unfold get_component_by_uuid, components_setter.
  rewrite foldl_register_component_lookup. simpl. rewrite lookup_empty. tauto.
Qed.

(** C6, as the code has it.  For a [SimLogTargetedTimeout] or a
    [SimLogUuidRefEvent] whose target is not a registered component id, and
    a manager whose component list is not empty, [trigger_event] raises:
    the lookup fails with a KeyError. *)
Theorem trigger_event_unknown_target (m : ComponentManager) (event : Event) (r : SingleRef) :
  no_components m = false →
  cls event = SimLogTargetedTimeout ∨ cls event = SimLogUuidRefEvent →
  single_reference event = Some r →
  unregistered m r →
  trigger_event m event = Raise (unknown_target_error event).
Proof.
  intros Hm Hcls Hr Hu. unfold trigger_event, unknown_target_error. rewrite Hm.
  assert (isinstance event SimLogProcess = false) as ->
    by (unfold isinstance; destruct Hcls as [-> | ->]; reflexivity).
  assert (isinstance event SimLogTargetedTimeout || isinstance event SimLogUuidRefEvent
          = true) as ->
    by (unfold isinstance; destruct Hcls as [-> | ->]; reflexivity).
  unfold callbacks_append, getattr_single_reference. rewrite Hr.
  destruct (callbacks event); [|done].
  simpl. by rewrite (component_lookup_listen_unregistered _ _ Hu).
Qed.

Lemma trigger_event_unknown_target_witness :
  trigger_event manager_A stray_event = Raise KeyError.
Proof.
  apply (trigger_event_unknown_target manager_A stray_event (RefUuid 7%N));
    [reflexivity | right; reflexivity | reflexivity | reflexivity].
Defined.

(** C6 as stated fails: with no component attached, the stray event is
    resolved without any error although its target is not registered. *)
Lemma unknown_target_skipped :
  cls stray_event = SimLogUuidRefEvent ∧
  single_reference stray_event = Some (RefUuid 7%N) ∧
  get_component_by_uuid (ComponentManager_init ∅ (Some [])) 7%N = None ∧
  (∀ e, trigger_event (ComponentManager_init ∅ (Some [])) stray_event ≠ Raise e) ∧
  (∀ e, trigger_event (ComponentManager_init ∅ None) stray_event ≠ Raise e).
Proof. repeat split; intros e; vm_compute; discriminate. Qed.

(** ** Logging: [log_event] *)

(** C3, as the code has it.  simpy's own [Initialize] and [Timeout] events
    never produce a record.  The start event of a SimLog process,
    [SimLogInitialize], is a [BaseSimLogEvent]: it produces no record when
    its topic is [None], and exactly one record, carrying its start topic,
    otherwise. *)
Theorem log_event_internal_events (m : ComponentManager) (h : Store)
    (sim_time prio : Z) (eid : nat) :
  (∀ event, isinstance event Initialize || isinstance event Timeout = true →
            log_event m h (sim_time, prio, eid, event) = Ok m) ∧
  (∀ e process p,
      log_event m h (sim_time, prio, eid, (SimLogInitialize_init e process None p).1)
        = Ok m) ∧
  (∀ e process tp p,
      log_event m h (sim_time, prio, eid, (SimLogInitialize_init e process (Some tp) p).1)
        = Ok (with_log m (event_log m ++ [start_record m h sim_time prio eid tp p]))).
Proof.
  split; [|split].
  - intros event H. unfold log_event. by rewrite H.
  - intros e process p. reflexivity.
  - intros e process tp p. reflexivity.
Qed.

Lemma log_event_internal_events_witness :
  log_event manager_A store_A
    (5, URGENT, 3%nat,
     {| cls := Timeout; topic := None; parent := ParentNone; component_state := None;
        cause := None; single_reference := None; callbacks := Some [];
        _value := Some VNone; _ok := Some true; _defused := false |})
  = Ok manager_A.
Proof.
  apply (proj1 (log_event_internal_events manager_A store_A 5 URGENT 3%nat)).
  reflexivity.
Defined.

(** C3 as stated fails: the start event of a process is a routine-resume
    trigger, and logging it appends a record. *)
Lemma log_event_records_process_start :
  let start := (SimLogInitialize_init (SimLogEnvironment_init 0 None true) 0
                  (Some EventTopic.DUMMY_EVENT) (ParentUuid 1%N)).1 in
  cls start = SimLogInitialize ∧
  callbacks start = Some [_resume 0] ∧
  event_log manager_A = [] ∧
  (event_log <$> log_event manager_A store_A (0, URGENT, O, start))
    = Ok [ {| LoggedEvent.topic := "DUMMY_EVENT";
              LoggedEvent.parent := Some "A";
              LoggedEvent.single_reference := None;
              LoggedEvent.sim_time := 0;
              LoggedEvent.value := VNone;
              LoggedEvent.simpy_id := O;
              LoggedEvent.simpy_priority := 0;
              LoggedEvent.component_state := None |} ].
Proof. repeat split. Qed.

(** *** State tags that are plain strings *)

Lemma isinstance_base_not_primitive (event : Event) :
  isinstance event BaseSimLogEvent = true →
  isinstance event Initialize || isinstance event Timeout = false.
Proof. unfold isinstance. by destruct (cls event). Qed.

(** Reading [.value] on a non-empty [str] state tag makes [log_event]
    raise, for every event of the [BaseSimLogEvent] family. *)
Lemma log_event_str_state (m : ComponentManager) (h : Store) (item : QItem)
    (id : nat) (s : string) :
  isinstance item.2 BaseSimLogEvent = true →
  component_state item.2 = Some (SStr id s) →
  s ≠ "" →
  log_event m h item = Raise AttributeError.
Proof.
  destruct item as [[[t p] i] event]. simpl. intros Hcls Hst Hs.
  unfold log_event. rewrite (isinstance_base_not_primitive _ Hcls), Hcls. simpl.
  unfold state_label. rewrite Hst. simpl.
  destruct (String.eqb_spec s ""); [done|]. reflexivity.
Qed.

Lemma succeed_fresh (e : SimLogEnvironment) (event : Event) (v : PyVal) :
  _value event = None →
  succeed e event v
    = Ok (trigger event true v, schedule e (trigger event true v) NORMAL 0).
Proof. unfold succeed. by intros ->. Qed.

Ltac run_bind H := cbv beta iota delta [mbind Result_bind] in H.

(** What [update_state] does when the new state is not the current one. *)
Lemma update_state_changed (w w' : World) (self : CompRef) (c : BaseComponent)
    (new_state : StateTag) (location : Location) :
  store w !! self = Some c →
  py_is new_state (state c) = false →
  update_state self new_state location w = Ok w' →
  ∃ v, resolve_location w location = Ok v ∧
       w' = {| env := schedule (env w)
                        (trigger (state_change_event (set_state c new_state)) true v)
                        NORMAL 0;
               store := <[self := set_state c new_state]> (store w) |}.
Proof.
  intros Hc Hne Hup. unfold update_state, deref in Hup. rewrite Hc in Hup.
  run_bind Hup.
  destruct (resolve_location w location) as [v|] eqn:Hloc; [|done].
  rewrite Hne in Hup. rewrite succeed_fresh in Hup by reflexivity.
  run_bind Hup. injection Hup as <-. by exists v.
Qed.

(** What [update_state] does when the new state is the current one. *)
Lemma update_state_same (w : World) (self : CompRef) (c : BaseComponent)
    (new_state : StateTag) (location : Location) (v : PyVal) :
  store w !! self = Some c →
  resolve_location w location = Ok v →
  py_is new_state (state c) = true →
  update_state self new_state location w = Ok w.
Proof.
  intros Hc Hloc Hsame. unfold update_state, deref. rewrite Hc.
  cbv beta iota delta [mbind Result_bind]. by rewrite Hloc, Hsame.
Qed.

(** C10. When [update_state] changes the state to a non-empty string, the
    STATE_CHANGE event it schedules carries that string as
    [component_state], and logging that event raises an AttributeError
    instead of appending a record, for every manager and at every time. *)
Theorem update_state_event_not_loggable (w w' : World) (self : CompRef) (c : BaseComponent)
    (id : nat) (s : string) (location : Location) :
  store w !! self = Some c →
  py_is (SStr id s) (state c) = false →
  s ≠ "" →
  update_state self (SStr id s) location w = Ok w' →
  ∃ event,
    _queue (env w')
      = heappush (_queue (env w)) (_now (env w) + 0, NORMAL, _eid (env w), event) ∧
    topic event = Some EventTopic.STATE_CHANGE ∧
    component_state event = Some (SStr id s) ∧
    ∀ m h sim_time prio eid,
      log_event m h (sim_time, prio, eid, event) = Raise AttributeError.
Proof.
  intros Hc Hne Hs Hup.
  destruct (update_state_changed _ _ _ _ _ _ Hc Hne Hup) as (v & _ & ->).
  eexists. split; [reflexivity|]. split; [reflexivity|]. split; [reflexivity|].
  intros m h sim_time prio eid.
  by apply (log_event_str_state m h _ id s).
Qed.

Lemma update_state_event_not_loggable_witness :
  ∃ event,
    _queue (env world_A') = [(0, NORMAL, O, event)] ∧
    topic event = Some EventTopic.STATE_CHANGE ∧
    component_state event = Some (SStr 1 "busy") ∧
    ∀ m h sim_time prio eid,
      log_event m h (sim_time, prio, eid, event) = Raise AttributeError.
Proof.
  apply (update_state_event_not_loggable world_A world_A' O component_A 1 "busy" LocNone);
    [reflexivity | reflexivity | discriminate | reflexivity].
Defined.

(** ** The component methods *)

(** *** [create_event] *)

(** The decision table holds whenever the delay, if given, is positive. *)
Lemma create_event_table (self : CompRef) (c : BaseComponent) (tp : EventTopic.t)
    (target : option UUID) (cause_ : option nat) (value : PyVal) (timeout : option Z)
    (w : World) :
  store w !! self = Some c →
  (∀ z, timeout = Some z → 0 < z) →
  produced (create_event self tp target cause_ value timeout w)
    = Ok (variant_table target timeout).
Proof.
  intros Hc Hz. unfold produced, create_event, deref. rewrite Hc.
  cbv beta iota delta [mbind Result_bind].
  destruct target as [u|], timeout as [z|]; simpl.
  - assert (0 < z) by auto.
    destruct (Z.eqb_spec z 0); [lia|]. simpl.
    unfold SimLogTargetedTimeout_init. destruct (Z.ltb_spec z 0); [lia|]. reflexivity.
  - reflexivity.
  - assert (0 < z) by auto.
    destruct (Z.eqb_spec z 0); [lia|]. simpl.
    unfold SimLogTimeout_init. destruct (Z.ltb_spec z 0); [lia|]. reflexivity.
  - reflexivity.
Qed.

(** C4 at a delay of 0.  The delay is tested for truth, not for being
    given: with [timeout=0] the call produces the class of the row "no
    delay", a [BaseSimLogEvent] without a target and a [SimLogUuidRefEvent]
    with one, where the table has [SimLogTimeout] and
    [SimLogTargetedTimeout]. *)
Theorem create_event_zero_delay :
  produced (create_event O EventTopic.DUMMY_EVENT None None VNone (Some 0) world_A)
    = Ok BaseSimLogEvent ∧
  variant_table None (Some 0) = SimLogTimeout ∧
  produced (create_event O EventTopic.DUMMY_EVENT (Some 1%N) None VNone (Some 0) world_A)
    = Ok SimLogUuidRefEvent ∧
  variant_table (Some 1%N) (Some 0) = SimLogTargetedTimeout.
Proof. repeat split. Qed.

(** The scenario of the specification: [create_event(topic, target=B.id,
    delay=10)] issued by A at time 0 gives a [SimLogTargetedTimeout] that
    fires at time 10 and reaches B's listener alone. *)
Example create_event_targeted_timeout :
  ∃ event w1 event' w2,
    create_event O EventTopic.DUMMY_EVENT (Some 2%N) None VNone (Some 10) world_AB
      = Ok (event, w1) ∧
    cls event = SimLogTargetedTimeout ∧
    fire mark w1 = Ok (event', w2) ∧
    _now (env w2) = 10 ∧
    state <$> store w2 !! O = Some SNone ∧
    state <$> store w2 !! 1%nat = Some NOTIFIED.
Proof. do 4 eexists. repeat split. Qed.

(** *** [update_state] *)

(** [update_state] never writes [last_time_state_updated]. *)
Lemma update_state_keeps_timestamp (w w' : World) (self : CompRef)
    (new_state : StateTag) (location : Location) :
  update_state self new_state location w = Ok w' →
  last_time_state_updated <$> store w' !! self
    = last_time_state_updated <$> store w !! self.
Proof.
  intros Hup. destruct (store w !! self) as [c|] eqn:Hc.
  - destruct (py_is new_state (state c)) eqn:Hsame.
    + unfold update_state, deref in Hup. rewrite Hc in Hup. run_bind Hup.
      destruct (resolve_location w location); [|done].
      rewrite Hsame in Hup. injection Hup as <-. by rewrite Hc.
    + destruct (update_state_changed _ _ _ _ _ _ Hc Hsame Hup) as (v & _ & ->).
      simpl. by rewrite lookup_insert_eq.
  - unfold update_state, deref in Hup. by rewrite Hc in Hup.
Qed.

(** C8 on a component built at time 0 whose state changes at time 5: the
    state is updated and the STATE_CHANGE event scheduled, but the time of
    the last state change still reads 0. *)
Theorem update_state_does_not_stamp :
  ∃ w' c',
    update_state O (SStr 1 "busy") LocNone world_A_at_5 = Ok w' ∧
    _now (env world_A_at_5) = 5 ∧
    store w' !! O = Some c' ∧
    state component_A = SNone ∧
    state c' = SStr 1 "busy" ∧
    last_time_state_updated c' = 0.
Proof. do 2 eexists. repeat split. Qed.

(** C7 on the state "busy".  A second [update_state] with the very same
    [str] object does nothing; with another [str] object of the same
    contents (identity 2 instead of 1) it compares with [is], finds the
    objects different and schedules a second STATE_CHANGE event.  In both
    runs, with logging enabled, the first firing raises in [log_event]
    before anything is appended, so that no STATE_CHANGE record is
    written. *)
Theorem update_state_repeated_state :
  ∃ w1 w2,
    update_state O (SStr 1 "busy") LocNone world_A = Ok w1 ∧
    update_state O (SStr 1 "busy") LocNone w1 = Ok w1 ∧
    update_state O (SStr 2 "busy") LocNone w1 = Ok w2 ∧
    py_eq (SStr 2 "busy") (SStr 1 "busy") = true ∧
    (topic ∘ snd <$> _queue (env w1)) = [Some EventTopic.STATE_CHANGE] ∧
    (topic ∘ snd <$> _queue (env w2))
      = [Some EventTopic.STATE_CHANGE; Some EventTopic.STATE_CHANGE] ∧
    (event_log <$> manager (env w1)) = Some [] ∧
    (∀ call, step call w1 = Raise AttributeError) ∧
    (∀ call, step call w2 = Raise AttributeError).
Proof. do 2 eexists. repeat split. Qed.

(** With an [Enum] member as state tag the same two calls behave as the
    docstring says: one event is scheduled, and its firing is logged with
    the member's value. *)
Example update_state_enum_state :
  ∃ w1 w2,
    update_state O (SEnum "BUSY" "busy") LocNone world_A = Ok w1 ∧
    update_state O (SEnum "BUSY" "busy") LocNone w1 = Ok w1 ∧
    step idle w1 = Ok w2 ∧
    (map LoggedEvent.component_state ∘ event_log <$> manager (env w2))
      = Some [Some "busy"].
Proof. do 2 eexists. repeat split. Qed.

(** ** The scheduler: failures *)

Lemma failure_copy_not_stop (v : option PyVal) :
  failure_copy v ≠ StopSimulation ∧ failure_copy v ≠ EmptySchedule.
Proof. by destruct v as [[]|]. Qed.

Section Failures.

Variable call : Callback → Event → World → Result (Event * World).

(** An exception raised by [step], other than the two that end a run,
    leaves [run]. *)
Lemma run_propagates (fuel : nat) (w : World) (e : Exn) :
  step call w = Raise e →
  e ≠ StopSimulation →
  e ≠ EmptySchedule →
  run call (S fuel) w = Crashed e.
Proof. simpl. intros -> He He'. by destruct e. Qed.

(** [step] raises as soon as any of its phases does. *)
Lemma step_fire_raises (w : World) (e : Exn) :
  fire call w = Raise e → step call w = Raise e.
Proof. unfold step. by intros ->. Qed.

(** C5. If the event fired by [step] has its failure flag set ([_ok] is
    false) and carries no [_defused] mark once its callbacks have run, then
    [step] raises a copy of the failure, and a [run] that reaches this step
    is left with that exception: the run is aborted. *)
Theorem step_raises_undefused_failure (w w' : World) (event : Event) :
  fire call w = Ok (event, w') →
  _ok event = Some false →
  _defused event = false →
  step call w = Raise (failure_copy (_value event)) ∧
  ∀ fuel, run call (S fuel) w = Crashed (failure_copy (_value event)).
Proof.
  intros Hfire Hok Hdef.
  assert (step call w = Raise (failure_copy (_value event))) as Hstep.
  { unfold step. rewrite Hfire. cbv beta iota delta [mbind Result_bind].
    by rewrite Hok, Hdef. }
  split; [done|]. intros fuel.
  apply run_propagates; [done | apply failure_copy_not_stop..].
Qed.

(** A failure that a callback defused does not stop the run. *)
Lemma step_defused_failure (w w' : World) (event : Event) :
  fire call w = Ok (event, w') →
  _defused event = true →
  is_Some (_ok event) →
  step call w = Ok w'.
Proof.
  intros Hfire Hdef [ok Hok]. unfold step. rewrite Hfire.
  cbv beta iota delta [mbind Result_bind]. rewrite Hok, Hdef.
  by rewrite andb_false_r.
Qed.

Lemma trigger_event_flags (m m' : ComponentManager) (event event' : Event) :
  trigger_event m event = Ok (m', event') →
  _ok event' = _ok event ∧ _defused event' = _defused event.
Proof.
  unfold trigger_event, attach_subscribers, callbacks_iadd, callbacks_append,
    defaultdict_getitem.
  intros H. repeat case_match; simplify_eq; try done;
    cbv beta iota delta [mbind Result_bind] in H; repeat case_match; by simplify_eq.
Qed.

Lemma call_all_flags (cbs : list Callback) (event event' : Event) (w w' : World) :
  keeps_flags call →
  call_all call cbs event w = Ok (event', w') →
  _ok event' = _ok event ∧ _defused event' = _defused event.
Proof.
  intros Hk. revert event w. induction cbs as [|cb cbs IH]; intros event w H; simpl in H.
  - by injection H as <- <-.
  - destruct (call cb event w) as [[event1 w1]|] eqn:Hcb; [|done].
    cbv beta iota delta [mbind Result_bind] in H.
    destruct (Hk _ _ _ _ _ Hcb) as [<- <-]. by eapply IH.
Qed.

(** If the event at the head of the queue has failed and no callback
    defuses it, [step] cannot return: whichever phase it reaches, it
    raises. *)
Lemma step_never_passes_failure (w : World) (t prio : Z) (eid : nat) (event : Event)
    (rest : list QItem) :
  keeps_flags call →
  _queue (env w) = (t, prio, eid, event) :: rest →
  _ok event = Some false →
  _defused event = false →
  ∃ e, step call w = Raise e.
Proof.
  intros Hk Hq Hok Hdef.
  destruct (fire call w) as [[event' w']|e] eqn:Hfire; [|by eauto using step_fire_raises].
  assert (_ok event' = Some false ∧ _defused event' = false) as [Hok' Hdef'].
  { unfold fire in Hfire. destruct (manager (env w)) as [m|]; [|done].
    unfold notify in Hfire. rewrite Hq in Hfire.
    destruct (trigger_event m event) as [[m1 event1]|] eqn:Htr; [|done].
    cbv beta iota delta [mbind Result_bind] in Hfire.
    destruct (if event_logging (env w) then log_event m1 (store w) (t, prio, eid, event1)
              else Ok m1); [|done].
    simpl in Hfire. destruct (callbacks event1) as [cbs|]; [|done].
    destruct (trigger_event_flags _ _ _ _ Htr) as [Ho Hd].
    destruct (call_all_flags _ _ _ _ _ Hk Hfire) as [-> ->]. simpl.
    by rewrite Ho, Hd. }
  eexists. unfold step. rewrite Hfire. cbv beta iota delta [mbind Result_bind].
  by rewrite Hok', Hdef'.
Qed.

End Failures.

Lemma step_raises_undefused_failure_witness :
  step idle world_failed = Raise (PyException "ValueError" "boom") ∧
  ∀ fuel, run idle (S fuel) world_failed = Crashed (PyException "ValueError" "boom").
Proof.
  apply (step_raises_undefused_failure idle world_failed world_failed_fired
           (set_callbacks failed_process None));
    reflexivity.
Defined.

(** ** Dispatch: when subscriptions are read *)

Lemma subscribe_fields (c : CompRef) (m : ComponentManager) (tp : EventTopic.t) :
  _components (subscribe c m tp) = _components m ∧
  _component_lookup (subscribe c m tp) = _component_lookup m ∧
  event_log (subscribe c m tp) = event_log m.
Proof. unfold subscribe. by destruct (defaultdict_getitem _ _). Qed.

Lemma subscribe_lookup (c : CompRef) (m : ComponentManager) (tp tp' : EventTopic.t) :
  default [] (_subscriptions_lookup (subscribe c m tp) !! tp')
    = default [] (_subscriptions_lookup m !! tp')
        ++ (if decide (tp = tp') then [listen c] else []).
Proof.
  unfold subscribe, defaultdict_getitem.
  destruct (_subscriptions_lookup m !! tp) as [l|] eqn:Hl; simpl;
    destruct (decide (tp = tp')) as [<-|Hne].
  - by rewrite lookup_insert_eq, Hl.
  - by rewrite lookup_insert_ne, app_nil_r.
  - by rewrite lookup_insert_eq, Hl.
  - by rewrite !lookup_insert_ne, app_nil_r.
Qed.

Lemma foldl_subscribe_fields (c : CompRef) (tps : list EventTopic.t) (m : ComponentManager) :
  _components (foldl (subscribe c) m tps) = _components m ∧
  _component_lookup (foldl (subscribe c) m tps) = _component_lookup m.
Proof.
  revert m. induction tps as [|tp tps IH]; intros m; simpl; [done|].
  destruct (IH (subscribe c m tp)) as [-> ->].
  by destruct (subscribe_fields c m tp) as (-> & -> & _).
Qed.

Lemma foldl_subscribe_lookup (c : CompRef) (tps : list EventTopic.t) (m : ComponentManager)
    (tp' : EventTopic.t) :
  default [] (_subscriptions_lookup (foldl (subscribe c) m tps) !! tp')
    = default [] (_subscriptions_lookup m !! tp')
        ++ ((λ _, listen c) <$> filter (λ t, t = tp') tps).
Proof.
  revert m. induction tps as [|tp tps IH]; intros m; simpl.
  - by rewrite app_nil_r.
  - rewrite IH, subscribe_lookup, <- app_assoc. f_equal.
    rewrite filter_cons. by destruct (decide (tp = tp')).
Qed.

Lemma register_components (h : Store) (m : ComponentManager) (c : CompRef) :
  _components (register h m c) = _components m.
Proof.
  unfold register. destruct (h !! c); [|done].
  by rewrite (proj1 (foldl_subscribe_fields _ _ _)).
Qed.

Lemma register_lookup (h : Store) (m : ComponentManager) (c : CompRef) (tp : EventTopic.t) :
  default [] (_subscriptions_lookup (register h m c) !! tp)
    = default [] (_subscriptions_lookup m !! tp) ++ subscribers_of h tp c.
Proof.
  unfold register, subscribers_of. destruct (h !! c) as [component|].
  - by rewrite foldl_subscribe_lookup.
  - by rewrite app_nil_r.
Qed.

Lemma foldl_register (h : Store) (cs : list CompRef) (m : ComponentManager)
    (tp : EventTopic.t) :
  _components (foldl (register h) m cs) = _components m ∧
  default [] (_subscriptions_lookup (foldl (register h) m cs) !! tp)
    = default [] (_subscriptions_lookup m !! tp) ++ declared_subscribers h cs tp.
Proof.
  revert m. induction cs as [|c cs IH]; intros m; simpl.
  - by rewrite app_nil_r.
  - destruct (IH (register h m c)) as [-> ->].
    rewrite register_components, register_lookup, <- app_assoc. done.
Qed.

(** The table built by the [components] setter holds, for each topic, the
    listeners declared in the store at that moment. *)
Lemma components_setter_subscribers (h : Store) (cs : list CompRef) (m : ComponentManager)
    (tp : EventTopic.t) :
  _components (components_setter h (Some cs) m) = Some cs ∧
  default [] (_subscriptions_lookup (components_setter h (Some cs) m) !! tp)
    = declared_subscribers h cs tp.
Proof.
  unfold components_setter.
  destruct (foldl_register h cs
              {| _components := Some cs; _component_lookup := ∅;
                 _subscriptions_lookup := ∅; event_log := event_log m |} tp) as [-> ->].
  simpl. by rewrite lookup_empty.
Qed.

(** A broadcast event receives the list the manager's table holds for its
    topic. *)
Lemma trigger_event_broadcast (m : ComponentManager) (event : Event) (tp : EventTopic.t)
    (cbs : list Callback) :
  no_components m = false →
  is_broadcast event = true →
  topic event = Some tp →
  callbacks event = Some cbs →
  attached (trigger_event m event)
    = Ok (Some (cbs ++ default [] (_subscriptions_lookup m !! tp))).
Proof.
  intros Hm Hb Htp Hcbs. unfold trigger_event. rewrite Hm.
  assert (attached (attach_subscribers m event)
          = Ok (Some (cbs ++ default [] (_subscriptions_lookup m !! tp)))) as Hsub.
  { unfold attach_subscribers, callbacks_iadd, defaultdict_getitem. rewrite Htp.
    destruct (_subscriptions_lookup m !! tp); rewrite Hcbs; reflexivity. }
  unfold is_broadcast in Hb. unfold isinstance.
  destruct (cls event); try done; simpl.
  apply bool_decide_eq_true in Hb. by rewrite Hb.
Qed.

(** C2, as the code has it.  Recipients are resolved when the event fires,
    against the table the manager built when its component list was last
    assigned.  A broadcast event therefore reaches the listeners declared
    in the store [h_attach] of that assignment, whatever the subscriptions
    have become since; and it reaches those declared in the current store
    [h_fire] if the component list is assigned again before the event
    fires. *)
Theorem trigger_event_binds_at_assignment (h_attach h_fire : Store) (cs : list CompRef)
    (m0 : ComponentManager) (event : Event) (tp : EventTopic.t) (cbs : list Callback) :
  cs ≠ [] →
  is_broadcast event = true →
  topic event = Some tp →
  callbacks event = Some cbs →
  attached (trigger_event (components_setter h_attach (Some cs) m0) event)
    = Ok (Some (cbs ++ declared_subscribers h_attach cs tp)) ∧
  attached (trigger_event
              (components_setter h_fire (Some cs)
                 (components_setter h_attach (Some cs) m0)) event)
    = Ok (Some (cbs ++ declared_subscribers h_fire cs tp)).
Proof.
  intros Hcs Hb Htp Hcbs.
  assert (∀ h m, no_components (components_setter h (Some cs) m) = false) as Hno.
  { intros h m. unfold no_components.
    rewrite (proj1 (components_setter_subscribers h cs m tp)). by destruct cs. }
  split.
  - rewrite (trigger_event_broadcast _ _ tp cbs) by auto.
    by rewrite (proj2 (components_setter_subscribers _ _ _ _)).
  - rewrite (trigger_event_broadcast _ _ tp cbs) by auto.
    by rewrite (proj2 (components_setter_subscribers _ _ _ _)).
Qed.

Lemma trigger_event_binds_at_assignment_witness :
  attached (trigger_event manager_AB broadcast_event) = Ok (Some [listen O]) ∧
  attached (trigger_event (components_setter store_AB_swapped (Some [O; 1%nat]) manager_AB)
              broadcast_event)
    = Ok (Some [listen 1%nat]).
Proof.
  apply (trigger_event_binds_at_assignment store_AB store_AB_swapped [O; 1%nat]
           {| _components := None; _component_lookup := ∅;
              _subscriptions_lookup := ∅; event_log := [] |}
           broadcast_event EventTopic.DUMMY_EVENT []);
    [discriminate | reflexivity | reflexivity | reflexivity].
Defined.

(** C2 as stated fails.  A subscribes to DUMMY_EVENT and B to nothing when
    the manager is built; A schedules a broadcast event on DUMMY_EVENT; then
    A drops its subscription and B subscribes.  When the event fires, the
    declared subscriptions name B alone, yet A's listener is the one that
    runs and B's is not. *)
Lemma changed_subscriptions_not_seen :
  ∃ w1 w3 event',
    create_event O EventTopic.DUMMY_EVENT None None VNone None world_AB
      = Ok (broadcast_event, w1) ∧
    declared_subscribers store_AB [O; 1%nat] EventTopic.DUMMY_EVENT = [listen O] ∧
    declared_subscribers store_AB_swapped [O; 1%nat] EventTopic.DUMMY_EVENT
      = [listen 1%nat] ∧
    fire mark {| env := env w1; store := store_AB_swapped |} = Ok (event', w3) ∧
    state <$> store w3 !! O = Some NOTIFIED ∧
    state <$> store w3 !! 1%nat = Some SNone.
Proof. do 3 eexists. repeat split. Qed.

(** ** The scheduler: firing order *)

Lemma item_ltb_spec (x y : QItem) :
  item_ltb x y = true ↔
  fire_time x < fire_time y ∨
  (fire_time x = fire_time y ∧
   (priority x < priority y ∨
    (priority x = priority y ∧ (sequence x < sequence y)%nat))).
Proof.
  destruct x as [[[t1 p1] i1] e1], y as [[[t2 p2] i2] e2].
  unfold item_ltb, fire_time, priority, sequence. simpl.
  rewrite !orb_true_iff, !andb_true_iff, !orb_true_iff, !andb_true_iff,
    !Z.ltb_lt, !Z.eqb_eq, Nat.ltb_lt.
  tauto.
Qed.

Lemma item_ltb_trans (x y z : QItem) :
  item_ltb x y = true → item_ltb y z = true → item_ltb x z = true.
Proof. rewrite !item_ltb_spec. lia. Qed.

Lemma item_ltb_total (x y : QItem) :
  item_ltb x y = false → sequence x ≠ sequence y → item_ltb y x = true.
Proof.
  intros Hxy Hne. apply item_ltb_spec.
  assert (¬ item_ltb x y = true) as Hn by (rewrite Hxy; discriminate).
  rewrite item_ltb_spec in Hn. lia.
Qed.

Lemma heappush_elem (q : list QItem) (x y : QItem) :
  y ∈ heappush q x ↔ y = x ∨ y ∈ q.
Proof.
  induction q as [|z q IH]; simpl.
  - set_solver.
  - destruct (item_ltb x z).
    + rewrite !elem_of_cons. tauto.
    + rewrite !elem_of_cons, IH. tauto.
Qed.

Lemma heappush_sorted (q : list QItem) (x : QItem) :
  StronglySorted (λ a b, item_ltb a b = true) q →
  Forall (λ y, sequence y ≠ sequence x) q →
  StronglySorted (λ a b, item_ltb a b = true) (heappush q x).
Proof.
  induction 1 as [|z q Hq IH Hz]; intros Hne; simpl.
  - repeat constructor.
  - apply Forall_cons in Hne as [Hzx Hne].
    destruct (item_ltb x z) eqn:Hxz.
    + constructor; [by constructor|].
      constructor; [done|].
      eapply Forall_impl; [exact Hz|]. intros b Hb. by eapply item_ltb_trans.
    + constructor; [by apply IH|].
      apply Forall_forall. intros b Hb. apply heappush_elem in Hb as [->|Hb].
      * apply item_ltb_total; [done | congruence].
      * rewrite Forall_forall in Hz. by apply Hz.
Qed.

Lemma heappush_sequences (q : list QItem) (x : QItem) :
  sequence <$> heappush q x ≡ₚ sequence x :: (sequence <$> q).
Proof.
  induction q as [|z q IH]; simpl; [done|].
  destruct (item_ltb x z); simpl; [done|].
  rewrite IH. apply Permutation_swap.
Qed.

Lemma sched_inv_init (initial_time : Z) (m : option ComponentManager) (logging : bool) :
  sched_inv (SimLogEnvironment_init initial_time m logging).
Proof. repeat split; simpl; constructor. Qed.

Lemma schedule_inv (e : SimLogEnvironment) (event : Event) (prio delay : Z) :
  sched_inv e → 0 ≤ delay → sched_inv (schedule e event prio delay).
Proof.
  intros (Hs & Hq & Hnd) Hd.
  assert (Forall (λ y : QItem, sequence y ≠ _eid e) (_queue e)) as Hfresh.
  { eapply Forall_impl; [exact Hq|]. intros y [_ Hy]. simpl in Hy. lia. }
  repeat split; simpl.
  - by apply heappush_sorted.
  - apply Forall_forall. intros y Hy. apply heappush_elem in Hy as [->|Hy].
    + unfold fire_time, sequence. simpl. lia.
    + rewrite Forall_forall in Hq. destruct (Hq y Hy). lia.
  - rewrite heappush_sequences. apply NoDup_cons. split; [|done].
    intros Hin. apply list_elem_of_fmap in Hin as (y & Hy1 & Hy2).
    rewrite Forall_forall in Hfresh. by apply (Hfresh y Hy2).
Qed.

Lemma pop_inv (e e' : SimLogEnvironment) (x : QItem) :
  sched_inv e →
  pop e = Some (x, e') →
  sched_inv e' ∧ _queue e = x :: _queue e' ∧
  _now e' = fire_time x ∧ _eid e' = _eid e ∧
  _now e ≤ fire_time x ∧ (sequence x < _eid e)%nat ∧
  least_of x (_queue e').
Proof.
  intros (Hs & Hq & Hnd) Hpop. unfold pop, heappop in Hpop.
  destruct (_queue e) as [|[[[t p] i] ev] q] eqn:Hqe; [done|].
  injection Hpop as <- <-. simpl.
  apply StronglySorted_inv in Hs as [Hs Hx].
  apply Forall_cons in Hq as [[Hx1 Hx2] Hq].
  simpl in Hnd. apply NoDup_cons in Hnd as [Hni Hnd].
  rewrite Forall_forall in Hx, Hq.
  repeat split; try done.
  - apply Forall_forall. intros y Hy. destruct (Hq y Hy) as [Hy1 Hy2].
    assert (item_ltb (t, p, i, ev) y = true) as Hlt by auto.
    apply item_ltb_spec in Hlt. unfold fire_time in *. simpl in *. lia.
  - by apply Hx.
  - intros Heq. apply Hni. apply list_elem_of_fmap. by exists y.
Qed.

Lemma StronglySorted_lookup {A} (R : relation A) (l : list A) (i j : nat) (a b : A) :
  StronglySorted R l → (i < j)%nat → l !! i = Some a → l !! j = Some b → R a b.
Proof.
  intros Hl. revert i j. induction Hl as [|x l Hl IH Hx]; intros i j Hij Hi Hj.
  - done.
  - destruct j as [|j]; [lia|]. simpl in Hj. destruct i as [|i]; simpl in Hi.
    + injection Hi as <-. rewrite Forall_forall in Hx. apply Hx.
      by eapply list_elem_of_lookup_2.
    + apply (IH i j); [lia | done | done].
Qed.

(** What a run from a state satisfying the invariant fires: every entry
    fires at or after the current time and was either pending at the start
    or numbered later; the entries come out by non-decreasing time and, for
    equal time and priority, by increasing number. *)
Lemma exec_ordered (ops : list Op) :
  Forall valid_delay ops →
  ∀ e, sched_inv e →
    sched_inv (exec ops e).2 ∧
    Forall (λ b, _now e ≤ fire_time b ∧
                 (b ∈ _queue e ∨ (_eid e ≤ sequence b)%nat)) (exec ops e).1 ∧
    StronglySorted (λ a b, fire_time a ≤ fire_time b) (exec ops e).1 ∧
    StronglySorted (λ a b, fire_time a = fire_time b → priority a = priority b →
                           (sequence a < sequence b)%nat) (exec ops e).1.
Proof.
  induction 1 as [|op ops Hop Hops IH]; intros e He; simpl.
  - repeat split; [apply He.. | constructor | constructor | constructor].
  - destruct op as [event prio delay|].
    + destruct (IH _ (schedule_inv e event prio delay He Hop)) as (Hinv & Hf & Ht & Hs).
      repeat split; [apply Hinv.. | | done | done].
      eapply Forall_impl; [exact Hf|]. intros b [Hb1 Hb2]. simpl in Hb1, Hb2.
      split; [done|]. destruct Hb2 as [Hb2|Hb2]; [|lia].
      apply heappush_elem in Hb2 as [->|Hb2]; [|by left].
      right. unfold sequence. simpl. lia.
    + destruct (pop e) as [[x e']|] eqn:Hpop; simpl.
      * destruct (pop_inv e e' x He Hpop) as (He' & Hq & Hnow & Heid & Hx1 & Hx2 & Hleast).
        destruct (IH e' He') as (Hinv & Hf & Ht & Hs).
        destruct (exec ops e') as [fired e''] eqn:Hexec. simpl in *.
        repeat split; [apply Hinv.. | | | ].
        -- constructor.
           ++ split; [done|]. left. rewrite Hq. by left.
           ++ eapply Forall_impl; [exact Hf|]. intros b [Hb1 Hb2].
              split; [lia|]. destruct Hb2 as [Hb2|Hb2]; [|right; lia].
              left. rewrite Hq. by right.
        -- constructor; [done|].
           eapply Forall_impl; [exact Hf|]. intros b [Hb1 _]. lia.
        -- constructor; [done|].
           eapply Forall_impl; [exact Hf|]. intros b [_ [Hb|Hb]] Htime Hprio.
           ++ destruct (Hleast b Hb) as [Hlt _]. apply item_ltb_spec in Hlt. lia.
           ++ lia.
      * repeat split; [apply He.. | constructor | constructor | constructor].
Qed.

(** An entry that fires after [x] and was pending when [x] was taken comes
    after [x] in the order on [(time, priority, eid)]; one scheduled since
    does too, unless it is due at the same time with a more urgent
    priority. *)
Lemma late_or_ascending (x b : QItem) (rest : list QItem) (eid : nat) :
  least_of x rest → (sequence x < eid)%nat → fire_time x ≤ fire_time b →
  b ∈ rest ∨ (eid ≤ sequence b)%nat →
  item_ltb x b = true ∨ late_urgent x b.
Proof.
  intros Hleast Hx Ht [Hb|Hb].
  - left. by destruct (Hleast b Hb).
  - destruct (item_ltb x b) eqn:Hlt; [by left|]. right.
    assert (¬ item_ltb x b = true) as Hn by (rewrite Hlt; discriminate).
    rewrite item_ltb_spec in Hn. unfold late_urgent. lia.
Qed.

Lemma exec_late (ops : list Op) :
  Forall valid_delay ops →
  ∀ e, sched_inv e →
    StronglySorted (λ a b, item_ltb a b = true ∨ late_urgent a b) (exec ops e).1.
Proof.
  induction 1 as [|op ops Hop Hops IH]; intros e He; simpl; [constructor|].
  destruct op as [event prio delay|].
  - apply IH. by apply schedule_inv.
  - destruct (pop e) as [[x e']|] eqn:Hpop; simpl; [|constructor].
    destruct (pop_inv e e' x He Hpop) as (He' & Hq & Hnow & Heid & Hx1 & Hx2 & Hleast).
    pose proof (IH e' He') as IH'.
    destruct (exec_ordered ops Hops e' He') as (_ & Hf & _).
    destruct (exec ops e') as [fired e''] eqn:Hexec. simpl in *.
    constructor; [done|].
    eapply Forall_impl; [exact Hf|]. intros b [Hb1 Hb2].
    apply (late_or_ascending x b (_queue e') (_eid e')); [done | lia | lia | done].
Qed.

Lemma exec_schedules (ops ops' : list Op) (e : SimLogEnvironment) :
  Forall (λ op, op ≠ OpStep) ops →
  (exec ops e).1 = [] ∧ exec (ops ++ ops') e = exec ops' (exec ops e).2.
Proof.
  intros Hops. revert e. induction Hops as [|op ops Hop Hops IH]; intros e; simpl.
  - done.
  - destruct op as [event prio delay|]; [apply IH | done].
Qed.

Lemma exec_steps (n : nat) (e : SimLogEnvironment) :
  (exec (replicate n OpStep) e).1 = take n (_queue e).
Proof.
  revert e. induction n as [|n IH]; intros e; simpl; [done|].
  unfold pop, heappop. destruct (_queue e) as [|[[[t p] i] ev] q] eqn:Hq; simpl; [done|].
  specialize (IH (set_queue e t (_eid e) q)).
  destruct (exec (replicate n OpStep) (set_queue e t (_eid e) q)). simpl in *.
  by rewrite IH.
Qed.

(** When every event is scheduled before the run starts, the firing order
    is the ascending order on [(time, priority, eid)]. *)
Lemma batch_order_ascending (initial_time : Z) (m : option ComponentManager) (logging : bool)
    (ops : list Op) (n : nat) :
  Forall valid_delay ops →
  Forall (λ op, op ≠ OpStep) ops →
  StronglySorted (λ a b, item_ltb a b = true)
    (exec (ops ++ replicate n OpStep) (SimLogEnvironment_init initial_time m logging)).1.
Proof.
  intros Hd Hs.
  rewrite (proj2 (exec_schedules ops (replicate n OpStep) _ Hs)), exec_steps.
  destruct (exec_ordered ops Hd _ (sched_inv_init initial_time m logging))
    as ((Hsorted & _) & _).
  rewrite <- (take_drop n (_queue _)) in Hsorted.
  by apply StronglySorted_app_1_l in Hsorted.
Qed.

(** *** The run loop *)

(** The component methods reach the schedule through [schedule] alone,
    with a delay that is not negative. *)
Lemma create_event_schedules (self : CompRef) (tp : EventTopic.t) (target : option UUID)
    (cause_ : option nat) (value : PyVal) (timeout : option Z) (w w' : World)
    (event : Event) :
  create_event self tp target cause_ value timeout w = Ok (event, w') →
  ∃ delay, 0 ≤ delay ∧ env w' = schedule (env w) event NORMAL delay ∧ store w' = store w.
Proof.
  intros H. unfold create_event, deref in H.
  destruct (store w !! self) as [c|]; [|done]. run_bind H.
  destruct target as [u|], timeout as [z|]; simpl in H;
    try destruct (Z.eqb_spec z 0) as [->|Hz]; simpl in H;
    unfold SimLogTargetedTimeout_init, SimLogTimeout_init in H;
    try destruct (Z.ltb_spec z 0) as [Hneg|Hpos]; simpl in H; try done;
    injection H as <- <-; eexists; (split; [|split; reflexivity]); lia.
Qed.

Lemma update_state_schedules (self : CompRef) (new_state : StateTag) (location : Location)
    (w w' : World) :
  update_state self new_state location w = Ok w' →
  env w' = env w ∨ ∃ event, env w' = schedule (env w) event NORMAL 0.
Proof.
  intros H. destruct (store w !! self) as [c|] eqn:Hc.
  - destruct (py_is new_state (state c)) eqn:Hsame.
    + left. unfold update_state, deref in H. rewrite Hc in H. run_bind H.
      destruct (resolve_location w location); [|done].
      rewrite Hsame in H. by injection H as <-.
    + right. destruct (update_state_changed _ _ _ _ _ _ Hc Hsame H) as (v & _ & ->).
      by eexists.
  - unfold update_state, deref in H. by rewrite Hc in H.
Qed.

Lemma relay_only_schedules : only_schedules relay.
Proof.
  intros cb event w event' w' H. destruct cb as [c|p|n]; simpl in H.
  - destruct (create_event c EventTopic.DUMMY_EVENT None None VNone (Some 2) w)
      as [[ev w1]|] eqn:Hce; [|done].
    simpl in H. injection H as <- <-.
    destruct (create_event_schedules _ _ _ _ _ _ _ _ _ Hce) as (delay & Hd & -> & _).
    exists [OpSchedule ev NORMAL delay]. repeat constructor; done.
  - injection H as <- <-. exists []. by repeat constructor.
  - injection H as <- <-. exists []. by repeat constructor.
Qed.

Lemma idle_only_schedules : only_schedules idle.
Proof.
  intros cb event w event' w' H. injection H as <- <-. exists []. by repeat constructor.
Qed.

Lemma starter_only_schedules : only_schedules starter.
Proof.
  intros cb event w event' w' H. destruct cb as [c|p|n]; simpl in H.
  - unfold start_process, deref in H. destruct (store w !! c) as [component|]; [|done].
    simpl in H. injection H as <- <-.
    eexists [OpSchedule _ URGENT 0]. by repeat constructor.
  - injection H as <- <-. exists []. by repeat constructor.
  - injection H as <- <-. exists []. by repeat constructor.
Qed.

Lemma sched_inv_sched (e e' : SimLogEnvironment) :
  sched e = sched e' → sched_inv e → sched_inv e'.
Proof. unfold sched, sched_inv. by intros [= -> -> ->]. Qed.

Lemma exec_sched (ops : list Op) (e e' : SimLogEnvironment) :
  sched e = sched e' →
  (exec ops e).1 = (exec ops e').1 ∧ sched (exec ops e).2 = sched (exec ops e').2.
Proof.
  revert e e'. induction ops as [|op ops IH]; intros e e' He; simpl; [done|].
  pose proof He as [= Hnow Heid Hq]. destruct op as [event prio delay|].
  - apply IH. unfold sched, schedule. simpl. by rewrite Hnow, Heid, Hq.
  - unfold pop. rewrite Hq.
    destruct (heappop (_queue e')) as [[[[[t p] i] ev] q]|]; simpl; [|done].
    destruct (IH (set_queue e t (_eid e) q) (set_queue e' t (_eid e') q)) as [IH1 IH2].
    { unfold sched. simpl. by rewrite Heid. }
    destruct (exec ops (set_queue e t (_eid e) q)),
             (exec ops (set_queue e' t (_eid e') q)).
    simpl in *. by rewrite IH1.
Qed.

Lemma exec_schedules_queue (ops : list Op) (e : SimLogEnvironment) :
  Forall (λ op, op ≠ OpStep) ops →
  _now (exec ops e).2 = _now e ∧
  (_eid e ≤ _eid (exec ops e).2)%nat ∧
  ∀ y, y ∈ _queue (exec ops e).2 → y ∈ _queue e ∨ (_eid e ≤ sequence y)%nat.
Proof.
  intros Hops. revert e. induction Hops as [|op ops Hop Hops IH]; intros e; simpl.
  - auto.
  - destruct op as [event prio delay|]; [|done].
    destruct (IH (schedule e event prio delay)) as (Hnow & Heid & Hq). simpl in *.
    repeat split; [done | lia |].
    intros y Hy. destruct (Hq y Hy) as [Hy'|Hy']; [|right; lia].
    apply heappush_elem in Hy' as [->|Hy']; [|by left].
    right. unfold sequence. simpl. lia.
Qed.

Lemma notify_sched (m : ComponentManager) (w w1 : World) :
  notify m w = Ok w1 →
  store w1 = store w ∧ _now (env w1) = _now (env w) ∧ _eid (env w1) = _eid (env w) ∧
  match _queue (env w) with
  | [] => _queue (env w1) = []
  | (t, p, i, _) :: rest => ∃ event1, _queue (env w1) = (t, p, i, event1) :: rest
  end.
Proof.
  unfold notify. destruct (_queue (env w)) as [|[[[t p] i] ev] rest] eqn:Hq.
  - intros [= <-]. by rewrite Hq.
  - intros H. destruct (trigger_event m ev) as [[m1 ev1]|]; [|done]. run_bind H.
    destruct (if event_logging (env w) then log_event m1 (store w) (t, p, i, ev1)
              else Ok m1); [|done].
    injection H as <-. simpl. eauto.
Qed.

Section RunOrder.

Variable call : Callback → Event → World → Result (Event * World).
Hypothesis call_schedules : only_schedules call.

Lemma call_all_schedules (cbs : list Callback) (event event' : Event) (w w' : World) :
  call_all call cbs event w = Ok (event', w') →
  ∃ ops, Forall valid_delay ops ∧ Forall (λ op, op ≠ OpStep) ops ∧
         sched (env w') = sched (exec ops (env w)).2.
Proof.
  revert event w. induction cbs as [|cb cbs IH]; intros event w H; simpl in H.
  - injection H as <- <-. exists []. by repeat constructor.
  - destruct (call cb event w) as [[event1 w1]|] eqn:Hcb; [|done]. run_bind H.
    destruct (call_schedules _ _ _ _ _ Hcb) as (ops1 & Hd1 & Hs1 & He1).
    destruct (IH _ _ H) as (ops2 & Hd2 & Hs2 & He2).
    exists (ops1 ++ ops2). split; [by apply Forall_app|]. split; [by apply Forall_app|].
    rewrite He2, (proj2 (exec_schedules ops1 ops2 (env w) Hs1)).
    by apply exec_sched.
Qed.

(** A [step] that runs its callbacks pops the head of the queue, sets the
    clock to its time and leaves the callbacks to schedule what they
    schedule. *)
Lemma fire_schedules (w w' : World) (event : Event) :
  fire call w = Ok (event, w') →
  ∃ x rest ops,
    _queue (env w) = x :: rest ∧
    Forall valid_delay ops ∧ Forall (λ op, op ≠ OpStep) ops ∧
    sched (env w')
      = sched (exec ops (set_queue (env w) (fire_time x) (_eid (env w)) rest)).2.
Proof.
  unfold fire. intros H. destruct (manager (env w)) as [m|]; [|done].
  destruct (notify m w) as [w1|] eqn:Hn; [|done]. run_bind H.
  destruct (notify_sched _ _ _ Hn) as (Hst & Hnow & Heid & Hq).
  destruct (_queue (env w)) as [|[[[t p] i] ev] rest] eqn:Hqw.
  - unfold pop in H. by rewrite Hq in H.
  - destruct Hq as [ev1 Hq]. unfold pop in H. rewrite Hq in H. simpl in H.
    destruct (callbacks ev1) as [cbs|]; [|done].
    destruct (call_all_schedules _ _ _ _ _ H) as (ops & Hd & Hs & He). simpl in He.
    exists (t, p, i, ev), rest, ops. repeat split; [done..|].
    rewrite He. apply exec_sched. unfold sched, fire_time. simpl. by rewrite Heid.
Qed.

Lemma fired_ordered (fuel : nat) (w : World) :
  sched_inv (env w) →
  Forall (λ b, _now (env w) ≤ fire_time b ∧
               (b ∈ _queue (env w) ∨ (_eid (env w) ≤ sequence b)%nat))
    (fired call fuel w) ∧
  StronglySorted (λ a b, fire_time a ≤ fire_time b) (fired call fuel w) ∧
  StronglySorted (λ a b, fire_time a = fire_time b → priority a = priority b →
                         (sequence a < sequence b)%nat) (fired call fuel w).
Proof.
  revert w. induction fuel as [|fuel IH]; intros w Hinv; simpl.
  { repeat split; constructor. }
  destruct (_queue (env w)) as [|x rest] eqn:Hq; [repeat split; constructor|].
  destruct (fire call w) as [[event w']|] eqn:Hfire; [|repeat split; constructor].
  destruct (fire_schedules _ _ _ Hfire) as (x' & rest' & ops & Hq' & Hd & Hs & He).
  rewrite Hq in Hq'. injection Hq' as <- <-.
  set (e1 := set_queue (env w) (fire_time x) (_eid (env w)) rest) in *.
  assert (pop (env w) = Some (x, e1)) as Hpop.
  { unfold pop. rewrite Hq. by destruct x as [[[t p] i] ev]. }
  destruct (pop_inv _ _ _ Hinv Hpop) as (Hinv1 & _ & _ & _ & Hx1 & Hx2 & Hleast).
  destruct (exec_ordered ops Hd e1 Hinv1) as (Hinv2 & _).
  destruct (exec_schedules_queue ops e1 Hs) as (Hnow2 & Heid2 & Hq2).
  pose proof He as [= Hnow' Heid' Hqueue'].
  assert (sched_inv (env w')) as Hinv' by (by eapply sched_inv_sched).
  destruct (IH w' Hinv') as (Hf & Ht & Hfifo).
  rewrite Hnow', Heid', Hqueue', Hnow2 in Hf. simpl in Hf, Heid2, Hq2.
  assert (Forall (λ b, fire_time x ≤ fire_time b ∧
                       (b ∈ rest ∨ (_eid (env w) ≤ sequence b)%nat))
            (fired call fuel w')) as Hf'.
  { eapply Forall_impl; [exact Hf|]. intros b [Hb1 Hb2]. split; [done|].
    destruct Hb2 as [Hb2|Hb2]; [|right; lia].
    destruct (Hq2 b Hb2) as [?|?]; [by left | by right]. }
  assert (x ∈ x :: rest) as Hxin by (by left).
  destruct (step call w); last first.
  { split; [|split].
    - constructor; [split; [lia | by left] | constructor].
    - repeat constructor.
    - repeat constructor. }
  repeat split.
  - constructor; [split; [lia | by left]|].
    eapply Forall_impl; [exact Hf'|]. intros b [Hb1 Hb2].
    split; [lia|]. destruct Hb2 as [Hb2|Hb2]; [left; by right | by right].
  - constructor; [done|].
    eapply Forall_impl; [exact Hf'|]. by intros b [Hb1 _].
  - constructor; [done|].
    eapply Forall_impl; [exact Hf'|]. intros b [_ [Hb|Hb]] Htime Hprio.
    + destruct (Hleast b Hb) as [Hlt _]. apply item_ltb_spec in Hlt. lia.
    + lia.
Qed.

Lemma fired_late (fuel : nat) (w : World) :
  sched_inv (env w) →
  StronglySorted (λ a b, item_ltb a b = true ∨ late_urgent a b) (fired call fuel w).
Proof.
  revert w. induction fuel as [|fuel IH]; intros w Hinv; simpl; [constructor|].
  destruct (_queue (env w)) as [|x rest] eqn:Hq; [constructor|].
  destruct (fire call w) as [[event w']|] eqn:Hfire; [|constructor].
  destruct (fire_schedules _ _ _ Hfire) as (x' & rest' & ops & Hq' & Hd & Hs & He).
  rewrite Hq in Hq'. injection Hq' as <- <-.
  set (e1 := set_queue (env w) (fire_time x) (_eid (env w)) rest) in *.
  assert (pop (env w) = Some (x, e1)) as Hpop.
  { unfold pop. rewrite Hq. by destruct x as [[[t p] i] ev]. }
  destruct (pop_inv _ _ _ Hinv Hpop) as (Hinv1 & _ & _ & _ & Hx1 & Hx2 & Hleast).
  destruct (exec_ordered ops Hd e1 Hinv1) as (Hinv2 & _).
  destruct (exec_schedules_queue ops e1 Hs) as (Hnow2 & Heid2 & Hq2).
  pose proof He as [= Hnow' Heid' Hqueue'].
  assert (sched_inv (env w')) as Hinv' by (by eapply sched_inv_sched).
  destruct (fired_ordered fuel w' Hinv') as (Hf & _).
  rewrite Hnow', Heid', Hqueue', Hnow2 in Hf. simpl in Hf, Heid2, Hq2.
  destruct (step call w); [|repeat constructor].
  constructor; [by apply IH|].
  eapply Forall_impl; [exact Hf|]. intros b [Hb1 Hb2].
  apply (late_or_ascending x b rest (_eid (env w))); [done | done | done |].
  destruct Hb2 as [Hb2|Hb2]; [|right; lia].
  destruct (Hq2 b Hb2) as [?|?]; [by left | by right].
Qed.

End RunOrder.

(** C1. Whatever events are scheduled, with delays that are not negative,
    and however the calls of [schedule] interleave with the steps: the
    entries fire by non-decreasing time, and entries with the same time and
    the same priority fire in the order in which they were scheduled, that
    of the counter [eid].  This holds of any interleaving [ops] of
    [schedule] calls and pops, and of the [run] loop itself, started in any
    environment so reached, whatever its callbacks schedule.  The entry a
    step fires is the least pending one in the order on
    [(time, priority, eid)], and no other pending entry ties with it.
    Steps between which nothing is scheduled fire in the ascending order on
    [(time, priority, eid)]; in general the firing order is that order but
    for one kind of entry: one scheduled after another entry has fired, for
    the same time and with a more urgent priority, fires after it. *)
Theorem firing_order (call : Callback → Event → World → Result (Event * World))
    (initial_time : Z) (m : option ComponentManager) (logging : bool)
    (ops : list Op) (h : Store) (fuel : nat) :
  only_schedules call →
  Forall valid_delay ops →
  let setup := exec ops (SimLogEnvironment_init initial_time m logging) in
  let w := {| env := setup.2; store := h |} in
  (time_ordered setup.1 ∧ fifo setup.1 ∧ ascending_but_late setup.1) ∧
  (time_ordered (fired call fuel w) ∧ fifo (fired call fuel w) ∧
   ascending_but_late (fired call fuel w)) ∧
  (∀ x e', pop setup.2 = Some (x, e') → least_of x (_queue e')) ∧
  (∀ n, ascending (exec (replicate n OpStep) setup.2).1).
Proof.
  intros Hcall Hops setup w.
  destruct (exec_ordered ops Hops _ (sched_inv_init initial_time m logging))
    as (Hinv & _ & Ht & Hs).
  pose proof (exec_late ops Hops _ (sched_inv_init initial_time m logging)) as Hl.
  fold setup in Hinv, Ht, Hs, Hl.
  destruct (fired_ordered call Hcall fuel w Hinv) as (_ & Ht' & Hs').
  pose proof (fired_late call Hcall fuel w Hinv) as Hl'.
  split; [split; [|split]|split; [split; [|split]|split]].
  - intros i j a b Hij Hi Hj. exact (StronglySorted_lookup _ _ i j a b Ht Hij Hi Hj).
  - intros i j a b Hij Hi Hj. exact (StronglySorted_lookup _ _ i j a b Hs Hij Hi Hj).
  - intros i j a b Hij Hi Hj. exact (StronglySorted_lookup _ _ i j a b Hl Hij Hi Hj).
  - intros i j a b Hij Hi Hj. exact (StronglySorted_lookup _ _ i j a b Ht' Hij Hi Hj).
  - intros i j a b Hij Hi Hj. exact (StronglySorted_lookup _ _ i j a b Hs' Hij Hi Hj).
  - intros i j a b Hij Hi Hj. exact (StronglySorted_lookup _ _ i j a b Hl' Hij Hi Hj).
  - intros x e' Hpop.
    by destruct (pop_inv _ _ _ Hinv Hpop) as (_ & _ & _ & _ & _ & _ & Hleast).
  - intros n i j a b Hij Hi Hj. rewrite exec_steps in Hi, Hj.
    destruct Hinv as (Hsorted & _).
    rewrite <- (take_drop n (_queue setup.2)) in Hsorted.
    apply StronglySorted_app_1_l in Hsorted.
    exact (StronglySorted_lookup _ _ i j a b Hsorted Hij Hi Hj).
Qed.

Lemma firing_order_witness :
  let setup := exec sample_ops (SimLogEnvironment_init 0 (Some manager_A) true) in
  let w := {| env := setup.2; store := store_A |} in
  (key <$> setup.1) = [(0, NORMAL, 1%nat)] ∧
  (key <$> fired relay 5 w)
    = [(5, URGENT, 2%nat); (5, NORMAL, O); (5, NORMAL, 3%nat);
       (7, NORMAL, 4%nat); (7, NORMAL, 5%nat)] ∧
  (time_ordered setup.1 ∧ fifo setup.1 ∧ ascending_but_late setup.1) ∧
  (time_ordered (fired relay 5 w) ∧ fifo (fired relay 5 w) ∧
   ascending_but_late (fired relay 5 w)) ∧
  (∀ x e', pop setup.2 = Some (x, e') → least_of x (_queue e')) ∧
  (∀ n, ascending (exec (replicate n OpStep) setup.2).1).
Proof.
  split; [reflexivity|]. split; [reflexivity|].
  apply (firing_order relay 0 (Some manager_A) true sample_ops store_A 5
           relay_only_schedules).
  unfold sample_ops. repeat constructor; simpl; lia.
Defined.

(** C1 as stated fails: the firing order is not the order on
    [(time, priority, eid)].  Component A publishes an event at time 0,
    which is entry [(0, NORMAL, 0)]; its listener answers by starting a
    process, whose start event is scheduled urgently at the current time,
    as entry [(0, URGENT, 1)].  That entry comes first in the order, and
    fires second. *)
Lemma late_urgent_entry_fires_later :
  only_schedules starter ∧
  ∃ w, create_event O EventTopic.DUMMY_EVENT None None VNone None world_A
         = Ok (broadcast_event, w) ∧
       env w = (exec [OpSchedule broadcast_event NORMAL 0]
                  (SimLogEnvironment_init 0 (Some manager_A) true)).2 ∧
       (key <$> fired starter 3 w) = [(0, NORMAL, O); (0, URGENT, 1%nat)] ∧
       ¬ ascending (fired starter 3 w).
Proof.
  split; [exact starter_only_schedules|].
  eexists. split; [reflexivity|]. split; [reflexivity|]. split; [reflexivity|].
  intros H.
  assert (∃ a b, fired starter 3 {| env := schedule (env world_A) broadcast_event NORMAL 0;
                                    store := store_A |} !! O = Some a ∧
                 fired starter 3 {| env := schedule (env world_A) broadcast_event NORMAL 0;
                                    store := store_A |} !! 1%nat = Some b ∧
                 item_ltb a b = false) as (a & b & Ha & Hb & Hab).
  { do 2 eexists. repeat split; reflexivity. }
  specialize (H O 1%nat a b (Nat.lt_0_1) Ha Hb). congruence.
Qed.

(** * Further properties *)

(** ** The registry built by the [components] setter *)

Lemma foldl_register_last (h : Store) (cs : list CompRef) (m : ComponentManager) (u : UUID) :
  _component_lookup (foldl (register h) m cs) !! u
    = match last_with_uuid h cs u with
      | Some c => Some c
      | None => _component_lookup m !! u
      end.
Proof.
  unfold last_with_uuid.
  induction cs as [|c cs IH] using rev_ind; [done|].
  rewrite foldl_snoc, register_component_lookup, filter_app, filter_cons, filter_nil.
  destruct (h !! c) as [component|] eqn:Hc; simpl.
  - destruct (decide (Some (uuid component) = Some u)) as [[= <-]|Hne].
    + by rewrite last_snoc, lookup_insert_eq.
    + rewrite app_nil_r, lookup_insert_ne by congruence. done.
  - destruct (decide (None = Some u)); [done|]. by rewrite app_nil_r.
Qed.

Lemma foldl_register_event_log (h : Store) (cs : list CompRef) (m : ComponentManager) :
  event_log (foldl (register h) m cs) = event_log m.
Proof.
  revert m. induction cs as [|c cs IH]; intros m; simpl; [done|].
  rewrite IH. unfold register. destruct (h !! c) as [component|]; [|done].
  induction (_subscriptions component) as [|tp tps IHt] using rev_ind; [done|].
  rewrite foldl_snoc. by rewrite (proj2 (proj2 (subscribe_fields _ _ _))).
Qed.

(** X1. After [manager.components = cs], [get_component_by_uuid] returns the
    last component of [cs] that carries the identifier, and [None] when
    none does; [get_component_name_by_uuid] returns the name that component
    has in the store at the time of the call. *)
Theorem registry_lookup (h h' : Store) (cs : list CompRef) (m : ComponentManager) (u : UUID) :
  get_component_by_uuid (components_setter h (Some cs) m) u = last_with_uuid h cs u ∧
  get_component_name_by_uuid (components_setter h (Some cs) m) h' u
    = (last_with_uuid h cs u ≫= λ c, name <$> h' !! c).
Proof.
  assert (_component_lookup (components_setter h (Some cs) m) !! u = last_with_uuid h cs u)
    as Hl.
  { unfold components_setter. rewrite foldl_register_last. simpl.
    rewrite lookup_empty. by destruct (last_with_uuid h cs u). }
  unfold get_component_by_uuid, get_component_name_by_uuid. rewrite Hl.
  split; [done|]. by destruct (last_with_uuid h cs u).
Qed.

(** X2. Assigning the component list rebuilds both tables from nothing and
    leaves the event log alone: what an earlier assignment registered is
    forgotten. *)
Theorem components_setter_replaces (h h' : Store) (cs cs' : option (list CompRef))
    (m : ComponentManager) :
  event_log (components_setter h cs m) = event_log m ∧
  components_setter h cs (components_setter h' cs' m) = components_setter h cs m.
Proof.
  assert (∀ h0 cs0 m0, event_log (components_setter h0 cs0 m0) = event_log m0) as Hlog.
  { intros h0 cs0 m0. unfold components_setter. destruct cs0 as [l|]; [|done].
    by rewrite foldl_register_event_log. }
  split; [apply Hlog|].
  unfold components_setter at 1 3. by rewrite Hlog.
Qed.

(** ** Dispatch: the other branches of [trigger_event] *)

(** X3. A single-targeted event ([SimLogTargetedTimeout], [SimLogUuidRefEvent],
    or a [SimLogProcess] with a target) whose target is registered receives
    the listener of that component, once, after the callbacks it already
    has; the manager is not changed. *)
Theorem trigger_event_single_target (m : ComponentManager) (event : Event) (u : UUID)
    (c : CompRef) (cbs : list Callback) :
  no_components m = false →
  cls event = SimLogTargetedTimeout ∨ cls event = SimLogUuidRefEvent
    ∨ cls event = SimLogProcess →
  single_reference event = Some (RefUuid u) →
  get_component_by_uuid m u = Some c →
  callbacks event = Some cbs →
  trigger_event m event = Ok (m, with_callback event cbs (listen c)).
Proof.
  intros Hm Hcls Hr Hu Hcbs. unfold get_component_by_uuid in Hu.
  unfold trigger_event, isinstance. rewrite Hm.
  destruct Hcls as [-> | [-> | ->]]; simpl;
    unfold callbacks_append, getattr_single_reference;
    rewrite ?Hr, Hcbs; simpl; by rewrite Hu.
Qed.

Lemma trigger_event_single_target_witness :
  trigger_event manager_A targeted_event
    = Ok (manager_A, with_callback targeted_event [] (listen O)).
Proof.
  apply (trigger_event_single_target manager_A targeted_event 1%N O []);
    [reflexivity | left; reflexivity | reflexivity | reflexivity | reflexivity].
Defined.

(** X4. A [SimLogSingleRefEvent] is resolved through the object it refers to,
    not through the registry: a component object receives its listener
    whether or not the manager knows it, and a reference that is [None] or
    a UUID has no [listen] to attach, which raises an AttributeError. *)
Theorem trigger_event_object_reference (m : ComponentManager) (event : Event)
    (r : SingleRef) (cbs : list Callback) :
  no_components m = false →
  cls event = SimLogSingleRefEvent →
  single_reference event = Some r →
  callbacks event = Some cbs →
  trigger_event m event
    = match r with
      | RefComponent c => Ok (m, with_callback event cbs (listen c))
      | RefNone | RefUuid _ => Raise AttributeError
      end.
Proof.
  intros Hm Hcls Hr Hcbs. unfold trigger_event, isinstance. rewrite Hm, Hcls. simpl.
  unfold callbacks_append, getattr_single_reference. rewrite Hr, Hcbs.
  by destruct r.
Qed.

Lemma trigger_event_object_reference_witness :
  (∀ c component, c ∈ [O] → store_A !! c = Some component → c ≠ 5%nat) ∧
  trigger_event manager_A object_event
    = Ok (manager_A, with_callback object_event [] (listen 5%nat)).
Proof.
  split.
  - intros c component Hc _. apply list_elem_of_singleton in Hc. by subst.
  - apply (trigger_event_object_reference manager_A object_event (RefComponent 5%nat) []);
      reflexivity.
Defined.

(** X5. An event of one of simpy's own classes is neither dispatched nor
    logged: [trigger_event] attaches nothing to it and [log_event] writes
    nothing for it, whatever it carries. *)
Theorem simpy_events_pass_through (m : ComponentManager) (h : Store) (event : Event)
    (sim_time prio : Z) (eid : nat) :
  is_simpy_class (cls event) = true →
  trigger_event m event = Ok (m, event) ∧
  log_event m h (sim_time, prio, eid, event) = Ok m.
Proof.
  intros Hcls. unfold trigger_event, log_event, isinstance.
  destruct (cls event); try done; simpl; by destruct (no_components m).
Qed.

Lemma simpy_events_pass_through_witness :
  trigger_event manager_A raw_timeout = Ok (manager_A, raw_timeout) ∧
  log_event manager_A store_A (3, NORMAL, O, raw_timeout) = Ok manager_A.
Proof. apply simpy_events_pass_through. reflexivity. Defined.

Lemma defaultdict_getitem_default (d : gmap EventTopic.t (list Callback))
    (key tp : EventTopic.t) :
  default [] ((defaultdict_getitem d key).1 !! tp) = default [] (d !! tp) ∧
  (defaultdict_getitem d key).2 = default [] (d !! key).
Proof.
  unfold defaultdict_getitem. destruct (d !! key) as [l|] eqn:Hk; simpl; [done|].
  split; [|done]. destruct (decide (key = tp)) as [<-|Hne].
  - by rewrite lookup_insert_eq, Hk.
  - by rewrite lookup_insert_ne.
Qed.

Lemma set_callbacks_same (event : Event) : set_callbacks event (callbacks event) = event.
Proof. by destruct event. Qed.

Lemma trigger_event_changes (m m' : ComponentManager) (event event' : Event) :
  trigger_event m event = Ok (m', event') →
  _components m' = _components m ∧
  _component_lookup m' = _component_lookup m ∧
  event_log m' = event_log m ∧
  (∀ tp, default [] (_subscriptions_lookup m' !! tp)
         = default [] (_subscriptions_lookup m !! tp)) ∧
  event' = set_callbacks event (callbacks event') ∧
  (∀ cbs, callbacks event = Some cbs → ∃ more, callbacks event' = Some (cbs ++ more)).
Proof.
  assert (∀ tp : EventTopic.t,
            callbacks_iadd m event tp = Ok (m', event') →
            _components m' = _components m ∧
            _component_lookup m' = _component_lookup m ∧
            event_log m' = event_log m ∧
            (∀ tp', default [] (_subscriptions_lookup m' !! tp')
                    = default [] (_subscriptions_lookup m !! tp')) ∧
            event' = set_callbacks event (callbacks event') ∧
            (∀ cbs, callbacks event = Some cbs →
                    ∃ more, callbacks event' = Some (cbs ++ more))) as Hiadd.
  { intros tp H. unfold callbacks_iadd in H.
    pose proof (defaultdict_getitem_default (_subscriptions_lookup m) tp) as Hd.
    destruct (defaultdict_getitem (_subscriptions_lookup m) tp) as [d l].
    destruct (callbacks event) as [cbs0|] eqn:Hc; [|done].
    injection H as <- <-. simpl. repeat split; try done.
    - intros tp'. apply Hd.
    - intros cbs [= <-]. by exists l. }
  assert (∀ arg, (event0 ← callbacks_append event arg; Ok (m, event0)) = Ok (m', event') →
            m' = m ∧ event' = set_callbacks event (callbacks event') ∧
            (∀ cbs, callbacks event = Some cbs →
                    ∃ more, callbacks event' = Some (cbs ++ more))) as Happ.
  { intros arg H. unfold callbacks_append in H.
    destruct (callbacks event) as [cbs0|] eqn:Hc; [|done].
    destruct arg as [cb|]; [|done]. simpl in H. injection H as <- <-.
    repeat split; try done. intros cbs [= <-]. by exists [cb]. }
  assert (m' = m → event' = event →
            _components m' = _components m ∧
            _component_lookup m' = _component_lookup m ∧
            event_log m' = event_log m ∧
            (∀ tp, default [] (_subscriptions_lookup m' !! tp)
                   = default [] (_subscriptions_lookup m !! tp)) ∧
            event' = set_callbacks event (callbacks event') ∧
            (∀ cbs, callbacks event = Some cbs →
                    ∃ more, callbacks event' = Some (cbs ++ more))) as Hsame.
  { intros -> ->. repeat split; try done.
    - by rewrite set_callbacks_same.
    - intros cbs ->. exists []. by rewrite app_nil_r. }
  unfold trigger_event, attach_subscribers. intros H.
  repeat case_match; simplify_eq;
    try (by apply Hsame);
    try (by eapply Hiadd);
    (destruct (Happ _ H) as (-> & ? & ?); by repeat split).
Qed.

(** X6. What [trigger_event] leaves alone.  It never touches the component
    list, the identifier table or the log, and the listeners recorded for
    each topic stay the same; of the event it changes the callback list
    only, and only by appending to it. *)
Theorem trigger_event_frame (m m' : ComponentManager) (event event' : Event) :
  trigger_event m event = Ok (m', event') →
  _components m' = _components m ∧
  _component_lookup m' = _component_lookup m ∧
  event_log m' = event_log m ∧
  (∀ tp, default [] (_subscriptions_lookup m' !! tp)
         = default [] (_subscriptions_lookup m !! tp)) ∧
  event' = set_callbacks event (callbacks event') ∧
  (∀ cbs, callbacks event = Some cbs → ∃ more, callbacks event' = Some (cbs ++ more)).
Proof. apply trigger_event_changes. Qed.

Lemma trigger_event_frame_witness :
  ∃ m' event',
    trigger_event manager_A broadcast_event = Ok (m', event') ∧
    _component_lookup m' = _component_lookup manager_A ∧
    event_log m' = event_log manager_A ∧
    callbacks event' = Some [listen O].
Proof.
  exists manager_A, (with_callback broadcast_event [] (listen O)).
  assert (trigger_event manager_A broadcast_event
          = Ok (manager_A, with_callback broadcast_event [] (listen O))) as H
    by reflexivity.
  destruct (trigger_event_frame _ _ _ _ H) as (_ & H2 & H3 & _).
  by repeat split.
Defined.

(** X7. The exceptions of [trigger_event]: a KeyError for a target that is not
    a key of the identifier table, an AttributeError for an attribute that
    is not there, a TypeError for a broadcast event whose callback list is
    [None]; nothing else. *)
Theorem trigger_event_raises (m : ComponentManager) (event : Event) (e : Exn) :
  trigger_event m event = Raise e →
  no_components m = false ∧
  (e = KeyError ∧ is_Some (callbacks event) ∨
   e = AttributeError ∨
   e = TypeError ∧ callbacks event = None).
Proof.
  unfold trigger_event, attach_subscribers, callbacks_iadd, callbacks_append,
    getattr_single_reference, component_lookup_listen, defaultdict_getitem.
  intros H. destruct (no_components m); [done|]. split; [done|].
  repeat case_match; simplify_eq;
    cbv beta iota delta [mbind Result_bind] in *;
    repeat case_match; simplify_eq; eauto.
Qed.

Lemma trigger_event_raises_witness :
  trigger_event manager_A stray_event = Raise KeyError ∧
  no_components manager_A = false ∧
  is_Some (callbacks stray_event).
Proof.
  assert (trigger_event manager_A stray_event = Raise KeyError) as H by reflexivity.
  destruct (trigger_event_raises manager_A stray_event KeyError H)
    as [Hm [[_ Hc] | [He | [He _]]]]; by try discriminate He.
Defined.

(** ** Logging: the records of [log_event] *)

(** Every way [log_event] returns: without a record, or with the record
    built from the labels it resolved for an event that has a topic. *)
Lemma log_event_inv (m m' : ComponentManager) (h : Store) (item : QItem) :
  log_event m h item = Ok m' →
  m' = m ∨
  ∃ tp cs sr v,
    topic item.2 = Some tp ∧
    isinstance item.2 Initialize || isinstance item.2 Timeout = false ∧
    state_label item.2 = Ok cs ∧
    single_reference_label m h item.2 = Ok sr ∧
    Event_value item.2 = Ok v ∧
    m' = with_log m (event_log m ++
           [record_of item (EventTopic.value tp) (parent_label m h (parent item.2))
              sr (value_label m h v) cs]).
Proof.
  destruct item as [[[t p] i] ev]. unfold log_event. simpl. intros H.
  destruct (isinstance ev Initialize || isinstance ev Timeout) eqn:Hprim;
    [left; by injection H|].
  destruct (isinstance ev BaseSimLogEvent || isinstance ev SimLogSingleRefEvent
            || isinstance ev SimLogProcess || isinstance ev SimLogInitialize);
    [|left; by injection H].
  destruct (state_label ev) as [cs|] eqn:Hcs; [|done]. simpl in H.
  destruct (topic ev) as [tp|] eqn:Htp; simpl in H; [|left; by injection H].
  destruct (single_reference_label m h ev) as [sr|] eqn:Hsr; [|done]. simpl in H.
  destruct (Event_value ev) as [v|] eqn:Hv; [|done]. simpl in H.
  injection H as <-. right. by exists tp, cs, sr, v.
Qed.

(** X8. The log is append-only.  A call of [log_event] that returns leaves the
    manager's tables alone and either leaves the log as it is or adds one
    record at its end, stamped with the priority and the sequence number
    of the schedule entry, with the topic of its event, and with the time of
    the entry as long as that is a number the [float] field holds
    exactly. *)
Theorem log_event_appends (m m' : ComponentManager) (h : Store) (item : QItem) :
  log_event m h item = Ok m' →
  _components m' = _components m ∧
  _component_lookup m' = _component_lookup m ∧
  _subscriptions_lookup m' = _subscriptions_lookup m ∧
  (event_log m' = event_log m ∨
   ∃ r, event_log m' = event_log m ++ [r] ∧
        (within_float_precision (fire_time item) →
         LoggedEvent.sim_time r = fire_time item) ∧
        LoggedEvent.simpy_priority r = priority item ∧
        LoggedEvent.simpy_id r = sequence item ∧
        (EventTopicValue.value ∘ EventTopic.value <$> topic item.2)
          = Some (LoggedEvent.topic r)).
Proof.
  intros H. destruct (log_event_inv _ _ _ _ H) as [->|(tp & cs & sr & v & Htp & _ & _ & _ & _ & ->)].
  - repeat split; by left.
  - repeat split; try done. right. eexists. repeat split. by rewrite Htp.
Qed.

Lemma log_event_appends_witness :
  within_float_precision 5 ∧
  ∃ m' r, log_event manager_A store_A (5, NORMAL, 2%nat, broadcast_event) = Ok m' ∧
          _component_lookup m' = _component_lookup manager_A ∧
          event_log m' = [r] ∧
          LoggedEvent.sim_time r = 5 ∧
          LoggedEvent.simpy_id r = 2%nat.
Proof.
  assert (within_float_precision 5) as Hfloat by (unfold within_float_precision; lia).
  split; [exact Hfloat|].
  destruct (log_event manager_A store_A (5, NORMAL, 2%nat, broadcast_event))
    as [m'|e] eqn:H; [|vm_compute in H; discriminate H].
  destruct (log_event_appends manager_A m' store_A (5, NORMAL, 2%nat, broadcast_event) H)
    as (_ & Hlookup & _ & [Hlog|(r & Hlog & Htime & _ & Hid & _)]).
  - vm_compute in H. injection H as <-. discriminate Hlog.
  - exists m', r. split; [reflexivity|]. split; [exact Hlookup|].
    split; [by rewrite Hlog|]. split; [exact (Htime Hfloat) | exact Hid].
Defined.

Lemma log_event_exn (m : ComponentManager) (h : Store) (item : QItem) (e : Exn) :
  log_event m h item = Raise e → e = AttributeError.
Proof.
  destruct item as [[[t p] i] ev].
  unfold log_event, state_label, single_reference_label, getattr_single_reference,
    getattr_value, Event_value.
  intros H. repeat case_match; simplify_eq;
    cbv beta iota delta [mbind Result_bind] in *;
    repeat case_match; by simplify_eq.
Qed.

Lemma single_reference_label_exn (m m' : ComponentManager) (h h' : Store) (event : Event)
    (e : Exn) :
  single_reference_label m h event = Raise e →
  single_reference_label m' h' event = Raise e.
Proof.
  unfold single_reference_label, getattr_single_reference.
  destruct (isinstance event SimLogSingleRefEvent), (isinstance event SimLogUuidRefEvent),
    (single_reference event) as [[|u|c]|]; simpl; by intros H.
Qed.

(** X9. Whether [log_event] fails does not depend on the registry.  Where
    dispatch raises a KeyError for an identifier that is not registered,
    logging looks identifiers up without failing and writes [None]: a call
    that raises never raises a KeyError, and raises the same exception
    with any other manager and any other component store. *)
Theorem log_event_failure_not_registry (m m' : ComponentManager) (h h' : Store)
    (item : QItem) (e : Exn) :
  log_event m h item = Raise e →
  e ≠ KeyError ∧ log_event m' h' item = Raise e.
Proof.
  intros H. split; [by rewrite (log_event_exn _ _ _ _ H)|].
  destruct item as [[[t p] i] ev]. unfold log_event in *.
  destruct (isinstance ev Initialize || isinstance ev Timeout); [done|].
  destruct (isinstance ev BaseSimLogEvent || isinstance ev SimLogSingleRefEvent
            || isinstance ev SimLogProcess || isinstance ev SimLogInitialize); [|done].
  destruct (state_label ev) as [cs|]; [|done]. simpl in *.
  destruct (topic ev) as [tp|]; simpl in *; [|done].
  destruct (single_reference_label m h ev) as [sr|e'] eqn:Hsr.
  - destruct (single_reference_label m' h' ev) as [sr'|e''] eqn:Hsr'.
    + simpl in *. by destruct (Event_value ev).
    + apply (single_reference_label_exn m' m h' h) in Hsr'. congruence.
  - by rewrite (single_reference_label_exn m m' h h' _ _ Hsr).
Qed.

Lemma log_event_failure_not_registry_witness :
  log_event manager_A store_A
    (0, NORMAL, O, state_change_event (set_state component_A (SStr 1 "busy")))
    = Raise AttributeError ∧
  log_event manager_AB store_AB_swapped
    (0, NORMAL, O, state_change_event (set_state component_A (SStr 1 "busy")))
    = Raise AttributeError.
Proof.
  split; [reflexivity|].
  apply (log_event_failure_not_registry manager_A manager_AB store_A store_AB_swapped).
  reflexivity.
Defined.

(** X10. Only a [SimLogSingleRefEvent] or a [SimLogUuidRefEvent] has its
    recipient logged: for every other event, a [SimLogTargetedTimeout] or a
    targeted [SimLogProcess] included, the record written has no
    [single_reference]. *)
Theorem log_event_target_not_recorded (m m' : ComponentManager) (h : Store) (item : QItem)
    (r : LoggedEvent.t) :
  isinstance item.2 SimLogSingleRefEvent = false →
  isinstance item.2 SimLogUuidRefEvent = false →
  log_event m h item = Ok m' →
  event_log m' = event_log m ++ [r] →
  LoggedEvent.single_reference r = None.
Proof.
  intros Hs Hu H Hr.
  destruct (log_event_inv _ _ _ _ H) as [->|(tp & cs & sr & v & _ & _ & _ & Hsr & _ & ->)].
  - apply (f_equal length) in Hr. rewrite length_app in Hr. simpl in Hr. lia.
  - simpl in Hr. apply app_inv_head in Hr. injection Hr as <-.
    unfold single_reference_label in Hsr. rewrite Hs, Hu in Hsr. by injection Hsr as <-.
Qed.

Lemma log_event_target_not_recorded_witness :
  single_reference targeted_event = Some (RefUuid 1%N) ∧
  get_component_name_by_uuid manager_A store_A 1%N = Some "A" ∧
  ∃ m' r, log_event manager_A store_A (10, NORMAL, O, targeted_event) = Ok m' ∧
          event_log m' = [r] ∧
          LoggedEvent.single_reference r = None.
Proof.
  split; [reflexivity|]. split; [reflexivity|].
  do 2 eexists. split; [reflexivity|]. split; [reflexivity|].
  eapply (log_event_target_not_recorded manager_A _ store_A (10, NORMAL, O, targeted_event));
    reflexivity.
Defined.



(** X12. An event without a topic is never recorded: [log_event] returns with
    the manager as it was, unless reading the state tag raised first. *)
Theorem log_event_without_topic (m : ComponentManager) (h : Store) (item : QItem) :
  topic item.2 = None →
  log_event m h item = Ok m ∨ log_event m h item = Raise AttributeError.
Proof.
  intros Htp. destruct (log_event m h item) as [m'|e] eqn:H.
  - left. destruct (log_event_inv _ _ _ _ H) as [->|(tp & ? & ? & ? & Htp' & _)]; [done|].
    congruence.
  - right. by rewrite (log_event_exn _ _ _ _ H).
Qed.

Lemma log_event_without_topic_witness :
  log_event manager_A store_A (0, NORMAL, O, silent_event) = Ok manager_A.
Proof.
  destruct (log_event_without_topic manager_A store_A (0, NORMAL, O, silent_event))
    as [H|H]; [reflexivity | exact H | discriminate H].
Defined.

(** ** The scheduler: what a step does *)

Lemma step_ok_fire (call : Callback → Event → World → Result (Event * World))
    (w w' : World) :
  step call w = Ok w' → ∃ event, fire call w = Ok (event, w').
Proof.
  unfold step. destruct (fire call w) as [[event w1]|]; [|done].
  cbv beta iota delta [mbind Result_bind]. intros H. exists event.
  destruct (_ok event) as [ok|]; [|done].
  destruct (negb ok && negb (_defused event)); [done|]. by injection H as ->.
Qed.

(** X13. [step] checks for the manager before it looks at the schedule: without
    a manager it raises UnsetManager, whatever is scheduled; with one and
    an empty schedule it raises EmptySchedule. *)
Theorem step_refuses (call : Callback → Event → World → Result (Event * World))
    (w : World) :
  manager (env w) = None ∨ _queue (env w) = [] →
  step call w = Raise (match manager (env w) with
                       | None => UnsetManager
                       | Some _ => EmptySchedule
                       end).
Proof.
  intros H. unfold step, fire. destruct (manager (env w)) as [m|].
  - destruct H as [H|H]; [discriminate H|]. unfold notify. rewrite H.
    cbv beta iota delta [mbind Result_bind]. unfold pop. by rewrite H.
  - reflexivity.
Qed.

Lemma step_refuses_witness :
  step idle {| env := set_manager (env world_A_started) None; store := store_A |}
    = Raise UnsetManager ∧
  step idle world_A = Raise EmptySchedule.
Proof.
  split.
  - apply (step_refuses idle
             {| env := set_manager (env world_A_started) None; store := store_A |}).
    left. reflexivity.
  - apply (step_refuses idle world_A). right. reflexivity.
Defined.

Lemma heappush_perm (q : list QItem) (x : QItem) : heappush q x ≡ₚ x :: q.
Proof.
  induction q as [|z q IH]; simpl; [done|].
  destruct (item_ltb x z); [done|]. rewrite IH. apply Permutation_swap.
Qed.

(** What calls of [schedule] leave in the queue: what was there and one
    entry for each call, numbered from the counter on. *)
Lemma exec_schedules_added (ops : list Op) (e : SimLogEnvironment) :
  Forall (λ op, op ≠ OpStep) ops →
  ∃ new, _queue (exec ops e).2 ≡ₚ _queue e ++ new ∧
         _eid (exec ops e).2 = (_eid e + length new)%nat ∧
         Forall (λ y, (_eid e ≤ sequence y)%nat) new.
Proof.
  intros Hops. revert e. induction Hops as [|op ops Hop Hops IH]; intros e; simpl.
  - exists []. by rewrite app_nil_r, Nat.add_0_r.
  - destruct op as [event prio delay|]; [|done].
    destruct (IH (schedule e event prio delay)) as (new & Hp & He & Hn). simpl in *.
    exists ((_now e + delay, prio, _eid e, event) :: new). split; [|split].
    + rewrite Hp, heappush_perm. simpl. apply Permutation_middle.
    + rewrite He. simpl. lia.
    + constructor; [unfold sequence; simpl; lia|].
      eapply Forall_impl; [exact Hn|]. simpl. intros y Hy. lia.
Qed.

(** X14. A step that returns, with callbacks that reach the schedule through
    [schedule] only, removes the head of the queue: what is pending after
    the step is the rest of the queue together with the entries the
    callbacks scheduled, which are numbered from the old counter on, and no
    pending entry bears the number of the fired one.  The clock is set to
    the time of the fired entry and never goes back, the counter counts the
    entries scheduled, and the schedule stays ascending, free of entries in
    the past and of repeated sequence numbers. *)
Theorem step_advances_clock (call : Callback → Event → World → Result (Event * World))
    (w w' : World) :
  only_schedules call →
  sched_inv (env w) →
  step call w = Ok w' →
  ∃ x rest new,
    _queue (env w) = x :: rest ∧
    _queue (env w') ≡ₚ rest ++ new ∧
    Forall (λ y, (_eid (env w) ≤ sequence y)%nat) new ∧
    (sequence x ∉ sequence <$> _queue (env w')) ∧
    _now (env w') = fire_time x ∧
    _now (env w) ≤ _now (env w') ∧
    _eid (env w') = (_eid (env w) + length new)%nat ∧
    sched_inv (env w').
Proof.
  intros Hcall Hinv Hstep. destruct (step_ok_fire _ _ _ Hstep) as [event Hfire].
  destruct (fire_schedules call Hcall _ _ _ Hfire) as (x & rest & ops & Hq & Hd & Hs & He).
  set (e1 := set_queue (env w) (fire_time x) (_eid (env w)) rest) in *.
  assert (pop (env w) = Some (x, e1)) as Hpop.
  { unfold pop. rewrite Hq. by destruct x as [[[t p] i] ev]. }
  destruct (pop_inv _ _ _ Hinv Hpop) as (Hinv1 & _ & _ & _ & Hx1 & Hx2 & Hleast).
  destruct (exec_ordered ops Hd e1 Hinv1) as (Hinv2 & _).
  destruct (exec_schedules_queue ops e1 Hs) as (Hnow2 & _ & _).
  destruct (exec_schedules_added ops e1 Hs) as (new & Hperm & Heid2 & Hnew).
  pose proof He as [= Hnow' Heid' Hqueue'].
  exists x, rest, new. rewrite Hnow', Heid', Hqueue', Hnow2. simpl in *.
  split; [done|]. split; [done|]. split; [done|]. split; [|split; [done|]].
  - rewrite Hperm, fmap_app, elem_of_app. intros [Hin|Hin].
    + apply list_elem_of_fmap in Hin as (y & Hy & Hyin).
      destruct (Hleast y Hyin) as [_ Hne]. congruence.
    + apply list_elem_of_fmap in Hin as (y & Hy & Hyin).
      rewrite Forall_forall in Hnew. specialize (Hnew y Hyin). lia.
  - split; [done|]. split; [done|]. by eapply sched_inv_sched.
Qed.

Lemma step_advances_clock_witness :
  ∃ w', step relay world_A_started = Ok w' ∧
        _now (env world_A_started) = 0 ∧
        _now (env w') = 5 ∧
        (key <$> _queue (env world_A_started)) = [(5, NORMAL, O)] ∧
        (key <$> _queue (env w')) = [(7, NORMAL, 1%nat)] ∧
        (O ∉ sequence <$> _queue (env w')).
Proof.
  destruct (step relay world_A_started) as [w'|e] eqn:Hstep;
    [|vm_compute in Hstep; discriminate Hstep].
  exists w'. split; [reflexivity|]. split; [reflexivity|].
  destruct (step_advances_clock relay world_A_started w' relay_only_schedules)
    as (x & rest & new & Hq & _ & _ & Hout & Hnow & _); [ | exact Hstep | ].
  - apply (schedule_inv (SimLogEnvironment_init 0 (Some manager_A) true)
             broadcast_event NORMAL 5); [apply sched_inv_init | lia].
  - simpl in Hq. injection Hq as <- <-.
    split; [exact Hnow|]. split; [reflexivity|]. split; [|exact Hout].
    vm_compute in Hstep. by injection Hstep as <-.
Defined.

(** X15. What a step does before it pops.  The event at the head of the queue
    is dispatched by [trigger_event] and stays at the head, with the
    listeners attached; the entry is then logged as dispatched when
    [event_logging] is on, which adds at most one record, at the end, and
    left out of the log when it is off.  The manager that results is the
    environment's. *)
Theorem notify_log (m : ComponentManager) (w w1 : World) (t prio : Z) (eid : nat)
    (event : Event) (rest : list QItem) :
  _queue (env w) = (t, prio, eid, event) :: rest →
  notify m w = Ok w1 →
  ∃ m1 event1 m',
    trigger_event m event = Ok (m1, event1) ∧
    _queue (env w1) = (t, prio, eid, event1) :: rest ∧
    manager (env w1) = Some m' ∧
    (if event_logging (env w)
     then log_event m1 (store w) (t, prio, eid, event1) = Ok m'
     else m' = m1) ∧
    (event_logging (env w) = false → event_log m' = event_log m) ∧
    (event_log m' = event_log m ∨ ∃ r, event_log m' = event_log m ++ [r]).
Proof.
  unfold notify. intros -> H.
  destruct (trigger_event m event) as [[m1 ev1]|] eqn:Htr; [|done].
  cbv beta iota delta [mbind Result_bind] in H.
  destruct (trigger_event_changes _ _ _ _ Htr) as (_ & _ & Hlog & _).
  exists m1, ev1.
  destruct (event_logging (env w)) eqn:Hflag.
  - destruct (log_event m1 (store w) (t, prio, eid, ev1)) as [m2|] eqn:Hl; [|done].
    injection H as <-. exists m2. simpl. do 4 (split; [done|]). split; [done|].
    destruct (log_event_inv _ _ _ _ Hl) as [->|(? & ? & ? & ? & _ & _ & _ & _ & _ & ->)].
    + by left.
    + right. simpl. rewrite Hlog. by eexists.
  - injection H as <-. exists m1. simpl. do 4 (split; [done|]). by split; [ | left].
Qed.

Lemma notify_log_witness :
  ∃ w1 m',
    notify manager_A world_A_started = Ok w1 ∧
    manager (env w1) = Some m' ∧
    (callbacks ∘ snd <$> _queue (env world_A_started)) = [Some []] ∧
    (callbacks ∘ snd <$> _queue (env w1)) = [Some [listen O]] ∧
    length (event_log m') = 1%nat.
Proof.
  destruct (notify manager_A world_A_started) as [w1|e] eqn:H;
    [|vm_compute in H; discriminate H].
  destruct (notify_log manager_A world_A_started w1 5 NORMAL O broadcast_event [] eq_refl H)
    as (m1 & event1 & m' & Htr & Hq & Hm & Hlog & _).
  exists w1, m'. split; [reflexivity|]. split; [exact Hm|]. split; [reflexivity|].
  vm_compute in Htr. injection Htr as <- <-. split; [by rewrite Hq|].
  vm_compute in Hlog. by injection Hlog as <-.
Defined.

Lemma step_defused_failure_witness :
  step idle world_failed = Raise (PyException "ValueError" "boom") ∧
  step defuse world_failed = Ok world_failed_fired.
Proof.
  split; [reflexivity|].
  apply (step_defused_failure defuse world_failed world_failed_fired
           (set_defused (set_callbacks failed_process None)));
    [reflexivity | reflexivity | by eexists].
Defined.

(** ** The component methods: events and processes *)

(** X17. A negative delay is refused by [create_event], with or without a
    target: the call raises a ValueError and nothing is scheduled. *)
Theorem create_event_negative_delay (self : CompRef) (c : BaseComponent)
    (tp : EventTopic.t) (target : option UUID) (cause_ : option nat) (value : PyVal)
    (z : Z) (w : World) :
  store w !! self = Some c →
  z < 0 →
  create_event self tp target cause_ value (Some z) w = Raise ValueError.
Proof.
  intros Hc Hz. unfold create_event, deref. rewrite Hc.
  cbv beta iota delta [mbind Result_bind]. simpl.
  destruct (Z.eqb_spec z 0) as [->|_]; [lia|].
  unfold SimLogTargetedTimeout_init, SimLogTimeout_init.
  destruct (Z.ltb_spec z 0); [|lia]. by destruct target.
Qed.

Lemma create_event_negative_delay_witness :
  create_event O EventTopic.DUMMY_EVENT None None VNone (Some (-1)) world_A
    = Raise ValueError ∧
  create_event O EventTopic.DUMMY_EVENT (Some 1%N) None VNone (Some (-1)) world_A
    = Raise ValueError.
Proof.
  split; apply (create_event_negative_delay O component_A); (reflexivity || lia).
Defined.

(** X18. Every event [create_event] returns is triggered as a success, carries
    the topic, the value, the cause and the target it was given and its
    creator's identifier as parent, has no callback yet, and has been
    scheduled exactly once, with normal priority, at the current time plus
    the delay; the components are not touched. *)
Theorem create_event_result (self : CompRef) (c : BaseComponent) (tp : EventTopic.t)
    (target : option UUID) (cause_ : option nat) (value : PyVal) (timeout : option Z)
    (w w' : World) (event : Event) :
  store w !! self = Some c →
  create_event self tp target cause_ value timeout w = Ok (event, w') →
  topic event = Some tp ∧
  parent event = ParentUuid (uuid c) ∧
  _value event = Some value ∧
  _ok event = Some true ∧
  _defused event = false ∧
  cause event = cause_ ∧
  single_reference event = (RefUuid <$> target) ∧
  callbacks event = Some [] ∧
  store w' = store w ∧
  env w' = schedule (env w) event NORMAL (effective_delay timeout).
Proof.
  intros Hc H. unfold create_event, deref in H. rewrite Hc in H. run_bind H.
  unfold effective_delay.
  destruct target as [u|], timeout as [z|]; simpl in H |- *;
    try destruct (Z.eqb_spec z 0) as [->|Hz]; simpl in H |- *;
    unfold SimLogTargetedTimeout_init, SimLogTimeout_init in H;
    try destruct (Z.ltb_spec z 0) as [Hneg|Hpos]; simpl in H; try done;
    injection H as <- <-; by repeat split.
Qed.

Lemma create_event_result_witness :
  ∃ event w',
    create_event O EventTopic.DUMMY_EVENT (Some 2%N) (Some 8%nat) (VInt 3) (Some 10) world_AB
      = Ok (event, w') ∧
    parent event = ParentUuid 1%N ∧
    single_reference event = Some (RefUuid 2%N) ∧
    (key <$> _queue (env w')) = [(10, NORMAL, O)].
Proof.
  do 2 eexists. split; [reflexivity|].
  edestruct (create_event_result O component_A EventTopic.DUMMY_EVENT (Some 2%N)
               (Some 8%nat) (VInt 3) (Some 10) world_AB) as (_ & Hp & _ & _ & _ & _ & Hr & _);
    [reflexivity | reflexivity | ].
  split; [exact Hp|]. split; [exact Hr | reflexivity].
Defined.




(** ** The component methods: state updates *)

(** X21. [update_state] resolves a UUID location through the manager before it
    looks at the state: with no manager attached to the environment it
    raises an AttributeError, even when the new state is the current one
    and nothing would be published. *)
Theorem update_state_needs_manager (self : CompRef) (c : BaseComponent)
    (new_state : StateTag) (u : UUID) (w : World) :
  store w !! self = Some c →
  manager (env w) = None →
  update_state self new_state (LocUuid u) w = Raise AttributeError.
Proof.
  intros Hc Hm. unfold update_state, deref, resolve_location. by rewrite Hc, Hm.
Qed.

Lemma update_state_needs_manager_witness :
  state component_A = SNone ∧
  update_state O SNone (LocUuid 1%N) world_A_unattached = Raise AttributeError ∧
  update_state O SNone LocNone world_A_unattached = Ok world_A_unattached.
Proof.
  split; [reflexivity|]. split; [|reflexivity].
  apply (update_state_needs_manager O component_A); reflexivity.
Defined.

(** X22. What [update_state] leaves alone.  Of the component it changes the
    state only: the identifier, the name, the subscriptions and the time
    stamp [last_time_state_updated] are as before.  The other components,
    the manager, the clock and the logging flag are as before too; the
    counter moves by one and the queue gets one entry, the STATE_CHANGE
    event at the current time, exactly when the state is not the current
    one. *)
Theorem update_state_frame (self : CompRef) (c : BaseComponent) (new_state : StateTag)
    (location : Location) (w w' : World) :
  store w !! self = Some c →
  update_state self new_state location w = Ok w' →
  (∃ c', store w' !! self = Some c' ∧
         uuid c' = uuid c ∧ name c' = name c ∧
         _subscriptions c' = _subscriptions c ∧
         last_time_state_updated c' = last_time_state_updated c ∧
         state c' = state_after c new_state) ∧
  (∀ other, other ≠ self → store w' !! other = store w !! other) ∧
  manager (env w') = manager (env w) ∧
  event_logging (env w') = event_logging (env w) ∧
  _now (env w') = _now (env w) ∧
  _eid (env w') = (if py_is new_state (state c) then _eid (env w) else S (_eid (env w))) ∧
  ∃ label,
    resolve_location w location = Ok label ∧
    _queue (env w')
      = if py_is new_state (state c) then _queue (env w)
        else heappush (_queue (env w))
               (_now (env w) + 0, NORMAL, _eid (env w),
                trigger (state_change_event (set_state c new_state)) true label).
Proof.
  intros Hc H. unfold state_after. destruct (py_is new_state (state c)) eqn:Hsame.
  - unfold update_state, deref in H. rewrite Hc in H. run_bind H.
    destruct (resolve_location w location) as [label|]; [|done].
    rewrite Hsame in H. injection H as <-.
    split; [by exists c|]. do 5 (split; [done|]). by exists label.
  - destruct (update_state_changed _ _ _ _ _ _ Hc Hsame H) as (v & Hloc & ->). simpl.
    split; [exists (set_state c new_state); by rewrite lookup_insert_eq|].
    split; [intros other Hne; by rewrite lookup_insert_ne|].
    do 4 (split; [done|]). by exists v.
Qed.

Lemma update_state_frame_witness :
  ∃ w', update_state O (SEnum "BUSY" "busy") LocNone world_A_at_5 = Ok w' ∧
        (last_time_state_updated <$> store w' !! O) = Some 0 ∧
        (state <$> store w' !! O) = Some (SEnum "BUSY" "busy") ∧
        manager (env w') = Some manager_A ∧
        _eid (env w') = 1%nat ∧
        (key <$> _queue (env w')) = [(5, NORMAL, O)].
Proof.
  destruct (update_state O (SEnum "BUSY" "busy") LocNone world_A_at_5) as [w'|e] eqn:Hup;
    [|vm_compute in Hup; discriminate Hup].
  exists w'. split; [reflexivity|].
  destruct (update_state_frame O component_A (SEnum "BUSY" "busy") LocNone world_A_at_5 w')
    as ((c' & Hc' & _ & _ & _ & Hstamp & Hstate) & _ & Hm & _ & _ & He & label & Hl & Hq);
    [reflexivity | exact Hup |].
  rewrite Hc'. simpl. rewrite Hstamp, Hstate.
  split; [reflexivity|]. split; [reflexivity|]. split; [exact Hm|]. split; [exact He|].
  by rewrite Hq.
Defined.

Lemma resolve_location_label (w : World) (location : Location) (v : PyVal)
    (m : ComponentManager) (h : Store) :
  resolve_location w location = Ok v → value_label m h v = v.
Proof.
  unfold resolve_location. destruct location as [|u|s]; intros H.
  - by injection H as <-.
  - destruct (manager (env w)) as [m0|]; [|done]. injection H as <-.
    by destruct (get_component_name_by_uuid m0 (store w) u).
  - by injection H as <-.
Qed.

(** X23. A state change to an [Enum] member whose value is a non-empty
    string is logged in full.  The event [update_state] schedules gives, in
    [log_event], exactly one record, whenever it fires at a time the
    [float] field holds exactly: topic STATE_CHANGE, the name the registry
    has for the component as parent, the resolved location as value, the
    member's value as component state, and no recipient. *)
Theorem update_state_enum_logged (self : CompRef) (c : BaseComponent)
    (member value : string) (location : Location) (w w' : World) :
  store w !! self = Some c →
  value ≠ "" →
  py_is (SEnum member value) (state c) = false →
  update_state self (SEnum member value) location w = Ok w' →
  ∃ event label,
    resolve_location w location = Ok label ∧
    _queue (env w')
      = heappush (_queue (env w)) (_now (env w) + 0, NORMAL, _eid (env w), event) ∧
    ∀ m h item,
      item.2 = event →
      within_float_precision (fire_time item) →
      log_event m h item
        = Ok (with_log m (event_log m ++
                [record_of item (EventTopic.value EventTopic.STATE_CHANGE)
                   (get_component_name_by_uuid m h (uuid c)) None label (Some value)])).
Proof.
  intros Hc _ Hne H.
  destruct (update_state_changed _ _ _ _ _ _ Hc Hne H) as (v & Hloc & ->).
  eexists _, v. split; [done|]. split; [reflexivity|].
  intros m h [[[t p] i] ev] Hev _. simpl in Hev. subst ev.
  unfold log_event. simpl.
  by rewrite (resolve_location_label _ _ _ m h Hloc).
Qed.

Lemma update_state_enum_logged_witness :
  ∃ w' event,
    update_state O (SEnum "BUSY" "busy") (LocUuid 1%N) world_A = Ok w' ∧
    (snd <$> _queue (env w')) = [event] ∧
    (event_log <$> log_event manager_A store_A (0, NORMAL, O, event))
      = Ok [record_of (0, NORMAL, O, event) (EventTopic.value EventTopic.STATE_CHANGE)
              (Some "A") None (VStr "A") (Some "busy")].
Proof.
  destruct (update_state O (SEnum "BUSY" "busy") (LocUuid 1%N) world_A) as [w'|e] eqn:Hup;
    [|vm_compute in Hup; discriminate Hup].
  destruct (update_state_enum_logged O component_A "BUSY" "busy" (LocUuid 1%N) world_A w')
    as (event & label & Hl & Hq & Hlog); [reflexivity | discriminate | reflexivity | exact Hup |].
  injection Hl as <-. exists w', event. split; [reflexivity|]. split.
  - by rewrite Hq.
  - rewrite (Hlog manager_A store_A (0, NORMAL, O, event) eq_refl); [done|].
    unfold within_float_precision, fire_time. simpl. lia.
Defined.

(** X24. The component methods keep the schedule sound.  From a schedule that
    is ascending, without entries in the past and without repeated
    sequence numbers, [create_event], [update_state] and [start_process]
    lead to a schedule of the same kind, whatever their arguments. *)
Theorem component_methods_keep_schedule (self : CompRef) (w : World) :
  sched_inv (env w) →
  (∀ tp target cause_ value timeout event w',
     create_event self tp target cause_ value timeout w = Ok (event, w') →
     sched_inv (env w')) ∧
  (∀ new_state location w',
     update_state self new_state location w = Ok w' → sched_inv (env w')) ∧
  (∀ process is_generator start_topic end_topic target p w',
     start_process self process is_generator start_topic end_topic target w = Ok (p, w') →
     sched_inv (env w')).
Proof.
  intros Hinv. split; [|split].
  - intros tp target cause_ value timeout event w' H.
    destruct (create_event_schedules _ _ _ _ _ _ _ _ _ H) as (delay & Hd & -> & _).
    by apply schedule_inv.
  - intros new_state location w' H.
    destruct (update_state_schedules _ _ _ _ _ H) as [->|[event ->]]; [done|].
    by apply schedule_inv.
  - intros process is_generator start_topic end_topic target p w' H.
    unfold start_process, deref in H. destruct (store w !! self) as [c|]; [|done].
    run_bind H. unfold SimLogProcess_init in H.
    destruct is_generator; [|done]. simpl in H. injection H as <- <-. simpl.
    by apply schedule_inv.
Qed.

Lemma component_methods_keep_schedule_witness :
  ∃ event w',
    create_event O EventTopic.DUMMY_EVENT None None VNone (Some 3) world_A_busy
      = Ok (event, w') ∧
    (key <$> _queue (env w')) = [(4, NORMAL, O); (7, NORMAL, 1%nat)] ∧
    sched_inv (env w').
Proof.
  assert (sched_inv (env world_A_busy)) as Hinv.
  { apply (schedule_inv (set_queue (env world_A) 4 O []) broadcast_event NORMAL 0);
      [repeat split; constructor | lia]. }
  do 2 eexists. split; [reflexivity|]. split; [reflexivity|].
  exact (proj1 (component_methods_keep_schedule O world_A_busy Hinv)
           EventTopic.DUMMY_EVENT None None VNone (Some 3) _ _ eq_refl).
Defined.

Lemma create_event_table_witness :
  produced (create_event O EventTopic.DUMMY_EVENT (Some 2%N) None VNone (Some 10) world_AB)
    = Ok SimLogTargetedTimeout ∧
  produced (create_event O EventTopic.DUMMY_EVENT None None VNone None world_AB)
    = Ok BaseSimLogEvent.
Proof.
  split.
  - apply (create_event_table O component_A EventTopic.DUMMY_EVENT (Some 2%N) None VNone
             (Some 10) world_AB); [reflexivity|]. intros z [= <-]. lia.
  - apply (create_event_table O component_A EventTopic.DUMMY_EVENT None None VNone
             None world_AB); [reflexivity|]. intros z H. discriminate H.
Defined.

(** ** The dump of the log *)

Lemma convert_logs_inv (get_loggable_data : PyVal → option (Result PyVal))
    (logs dumped : list LoggedEvent.t) :
  convert_logs get_loggable_data logs = Ok dumped →
  Forall2 (λ log out, out = set_value log (dumped_value get_loggable_data
                                             (LoggedEvent.value log)))
    logs dumped.
Proof.
  revert dumped. induction logs as [|log logs IH]; intros dumped H; simpl in H.
  - injection H as <-. constructor.
  - destruct (convert_log_to_dict get_loggable_data log) as [d|] eqn:Hd; [|done].
    run_bind H. destruct (convert_logs get_loggable_data logs) as [ds|]; [|done].
    run_bind H. injection H as <-. constructor; [|by apply IH].
    unfold convert_log_to_dict, dumped_value in *.
    destruct (get_loggable_data (LoggedEvent.value log)) as [[data|]|]; [| done |].
    + by injection Hd as <-.
    + injection Hd as <-. by destruct log.
Qed.

(** X25. A dump that succeeds writes the log as it is, record by record and
    in order: every record keeps its topic, parent, recipient and time, its
    sequence number, priority and component state, and its value is replaced
    by its loggable data exactly when it is a [Loggable].  It succeeds only
    on values that JSON has: a record whose value, once converted, is still
    an object (an exception, a component, a UUID) makes the dump raise. *)
Theorem json_dump_keeps_records (get_loggable_data : PyVal → option (Result PyVal))
    (logs dumped : list LoggedEvent.t) (event_topic : list EventTopic.t)
    (catalogue : gmap string string) :
  json_dump get_loggable_data logs event_topic = Ok (catalogue, dumped) →
  length dumped = length logs ∧
  record_id <$> dumped = record_id <$> logs ∧
  (∀ i log, logs !! i = Some log →
     dumped !! i
       = Some (set_value log (dumped_value get_loggable_data (LoggedEvent.value log)))) ∧
  ∀ log, log ∈ logs →
    json_serializable (dumped_value get_loggable_data (LoggedEvent.value log)) = true.
Proof.
  unfold json_dump, dump_dict. intros H.
  destruct (convert_logs get_loggable_data logs) as [ds|] eqn:Hds; [|done].
  run_bind H.
  destruct (forallb (λ log, json_serializable (LoggedEvent.value log))
              (event_descriptions event_topic, ds).2) eqn:Hjson; [|done].
  injection H as _ <-. simpl in Hjson. rewrite forallb_forall in Hjson.
  apply convert_logs_inv in Hds. split; [|split; [|split]].
  - symmetry. by eapply Forall2_length.
  - clear Hjson.
    induction Hds as [|log out logs ds -> _ IH]; [done|]. rewrite !fmap_cons. by f_equal.
  - intros i log Hi.
    destruct (Forall2_lookup_l _ _ _ _ _ Hds Hi) as (out & Hout & ->). done.
  - intros log Hin. apply list_elem_of_lookup in Hin as [i Hi].
    destruct (Forall2_lookup_l _ _ _ _ _ Hds Hi) as (out & Hout & ->).
    apply list_elem_of_lookup_2 in Hout. apply list_elem_of_In in Hout.
    exact (Hjson _ Hout).
Qed.

Lemma json_dump_keeps_records_witness :
  json_dump loggable_ints [failed_record] [EventTopic.DUMMY_EVENT] = Raise TypeError ∧
  ∃ catalogue dumped,
    json_dump loggable_ints [plain_record; set_value plain_record (VInt 4)]
      [EventTopic.DUMMY_EVENT; EventTopic.STATE_CHANGE] = Ok (catalogue, dumped) ∧
    (LoggedEvent.value <$> dumped) = [VStr "done"; VDict "id" "patient"] ∧
    record_id <$> dumped
      = record_id <$> [plain_record; set_value plain_record (VInt 4)].
Proof.
  split; [reflexivity|].
  destruct (json_dump loggable_ints [plain_record; set_value plain_record (VInt 4)]
              [EventTopic.DUMMY_EVENT; EventTopic.STATE_CHANGE])
    as [[catalogue dumped]|e] eqn:H; [|vm_compute in H; discriminate H].
  exists catalogue, dumped. split; [reflexivity|].
  destruct (json_dump_keeps_records _ _ _ _ _ H) as (_ & Hid & _).
  split; [|exact Hid].
  vm_compute in H. by injection H as _ <-.
Defined.

Lemma event_descriptions_last (event_topic : list EventTopic.t) (k : string) :
  event_descriptions event_topic !! k
    = (EventTopicValue.description ∘ EventTopic.value)
        <$> last (filter (λ member, topic_key member = k) event_topic).
Proof.
  unfold event_descriptions.
  induction event_topic as [|member members IH] using rev_ind; [done|].
  rewrite foldl_snoc, filter_app, filter_cons, filter_nil.
  destruct (decide (topic_key member = k)) as [<-|Hne].
  - by rewrite last_snoc, lookup_insert_eq.
  - rewrite app_nil_r. unfold topic_key in Hne. by rewrite lookup_insert_ne.
Qed.

(** X26. The topic catalogue of a dump holds, for each topic value, the
    description of the last enumeration member with that value, and nothing
    for a value no member has; when the members have pairwise different
    values, each member's description is found under its value. *)
Theorem dump_dict_catalogue (get_loggable_data : PyVal → option (Result PyVal))
    (logs dumped : list LoggedEvent.t) (event_topic : list EventTopic.t)
    (catalogue : gmap string string) :
  dump_dict get_loggable_data logs event_topic = Ok (catalogue, dumped) →
  (∀ k, catalogue !! k
        = (EventTopicValue.description ∘ EventTopic.value)
            <$> last (filter (λ member, topic_key member = k) event_topic)) ∧
  (NoDup (topic_key <$> event_topic) →
   ∀ member, member ∈ event_topic →
     catalogue !! topic_key member
       = Some (EventTopicValue.description (EventTopic.value member))).
Proof.
  unfold dump_dict. intros H.
  destruct (convert_logs get_loggable_data logs) as [ds|]; [|done].
  run_bind H. injection H as <- _.
  split; [apply event_descriptions_last|].
  intros Hnd member Hin. rewrite event_descriptions_last.
  apply list_elem_of_split in Hin as (l1 & l2 & ->).
  rewrite fmap_app, fmap_cons in Hnd. apply NoDup_app in Hnd as (_ & _ & Hnd).
  apply NoDup_cons in Hnd as [Hnot _].
  rewrite filter_app, filter_cons.
  destruct (decide (topic_key member = topic_key member)); [|done].
  assert (filter (λ m0, topic_key m0 = topic_key member) l2 = []) as ->.
  { assert (∀ m0, m0 ∈ l2 → topic_key m0 ≠ topic_key member) as Hl2.
    { intros m0 Hm0 Heq. apply Hnot. apply list_elem_of_fmap. by exists m0. }
    clear -Hl2. induction l2 as [|m0 l2 IH]; [done|].
    rewrite filter_cons. destruct (decide (topic_key m0 = topic_key member)) as [Heq|_].
    - exfalso. eapply Hl2; [by left | done].
    - apply IH. intros m1 Hm1. apply Hl2. by right. }
  by rewrite last_snoc.
Qed.

Lemma dump_dict_catalogue_witness :
  ∃ catalogue dumped,
    dump_dict loggable_ints [failed_record]
      [EventTopic.DUMMY_EVENT; EventTopic.STATE_CHANGE] = Ok (catalogue, dumped) ∧
    catalogue !! "STATE_CHANGE" = Some "Used by all components" ∧
    catalogue !! "PATIENT_JOINED_QUEUE" = None.
Proof.
  destruct (dump_dict loggable_ints [failed_record]
              [EventTopic.DUMMY_EVENT; EventTopic.STATE_CHANGE])
    as [[catalogue dumped]|e] eqn:H; [|vm_compute in H; discriminate H].
  exists catalogue, dumped. split; [reflexivity|].
  destruct (dump_dict_catalogue _ _ _ _ _ H) as [H1 _].
  split; by rewrite H1.
Defined.
